(** * PyMatching: weighted-graph construction and the flooder's event queue

    A shallow embedding of [stim_io.cc] (merging of edge weights, the
    intermediate weighted graph built from a detector error model, the
    choice of flooders in [to_mwpm]) and of the declarations of
    [graph_flooder.h] (the event queue and the clock of the flooder),
    followed by the properties proved about them. *)

From Stdlib Require Import ZArith NArith Reals Lra Lia String.
From Stdlib Require Import SpecFloat.
From stdpp Require Import base option list sorting pretty.

(** ** Part I: definitions *)

(** *** Arithmetic on [double]

    The source computes on C++ [double]s.  The operations it uses are
    gathered in one interface, so that each function of the source is
    written once and can be read either over IEEE-754 binary64 values or
    over exact real numbers. *)

Class DoubleOps (D : Type) : Type := {
  d_zero : D;                      (* the literal 0 converted to double *)
  d_one : D;                       (* the literal 1 converted to double *)
  d_add : D -> D -> D;
  d_sub : D -> D -> D;
  d_mul : D -> D -> D;
  d_div : D -> D -> D;
  d_neg : D -> D;
  d_lt : D -> D -> bool;           (* operator< *)
  d_abs : D -> D;                  (* std::abs *)
  d_copysign : D -> D -> D;        (* std::copysign *)
  d_exp : D -> D;                  (* std::exp *)
  d_log : D -> D                   (* std::log *)
}.

(** [std::min(x, y)] is [(y < x) ? y : x]. *)
Definition std_min {D} `{DoubleOps D} (x y : D) : D :=
  if d_lt y x then y else x.

(** [pm::merge_weights] *)
Definition merge_weights {D} `{DoubleOps D} (a b : D) : D :=
  let sgn := d_mul (d_copysign d_one a) (d_copysign d_one b) in
  let signed_min := d_mul sgn (std_min (d_abs a) (d_abs b)) in
  d_sub
    (d_add signed_min (d_log (d_add d_one (d_exp (d_neg (d_abs (d_add a b)))))))
    (d_log (d_add d_one (d_exp (d_neg (d_abs (d_sub a b)))))).

(** The weight [std::log((1 - p) / p)] that [handle_dem_instruction]
    gives to an error mechanism of probability [p]. *)
Definition log_odds {D} `{DoubleOps D} (p : D) : D :=
  d_log (d_div (d_sub d_one p) p).

(** **** IEEE-754 binary64 *)

Module Binary64.

Definition prec : Z := 53.
Definition emax : Z := 1024.

Definition double : Type := spec_float.

Definition zero : double := S754_zero false.
Definition one : double := S754_finite false 4503599627370496 (-52).

Definition sign_bit (x : double) : bool :=
  match x with
  | S754_zero s | S754_infinity s | S754_finite s _ _ => s
  | S754_nan => false
  end.

(** [std::copysign(x, y)]: the magnitude of [x] with the sign of [y].
    [spec_float] has a single NaN without a sign bit; its sign is read
    as positive. *)
Definition copysign (x y : double) : double :=
  if sign_bit y then SFopp (SFabs x) else SFabs x.

Definition is_finite (x : double) : bool :=
  match x with
  | S754_zero _ | S754_finite _ _ _ => true
  | S754_infinity _ | S754_nan => false
  end.

(** [std::exp] and [std::log] belong to the C library; they are taken
    as arbitrary functions on binary64 values. *)
Definition ops (libm_exp libm_log : double -> double) : DoubleOps double := {|
  d_zero := zero;
  d_one := one;
  d_add := SFadd prec emax;
  d_sub := SFsub prec emax;
  d_mul := SFmul prec emax;
  d_div := SFdiv prec emax;
  d_neg := SFopp;
  d_lt := SFltb;
  d_abs := SFabs;
  d_copysign := copysign;
  d_exp := libm_exp;
  d_log := libm_log
|}.

(** A magnitude: a value that is not NaN and has its sign bit clear. *)
Definition is_magnitude (x : double) : bool :=
  match x with
  | S754_zero false | S754_infinity false | S754_finite false _ _ => true
  | _ => false
  end.

Definition is_nan (x : double) : bool :=
  match x with S754_nan => true | _ => false end.

(** [SFcompare] orders magnitudes by class (zero, finite, infinite), then
    by exponent, then by mantissa. *)
Definition magnitude_key (x : double) : Z * Z * Z :=
  match x with
  | S754_finite _ m e => (1, e, Z.pos m)
  | S754_infinity _ => (2, 0, 0)
  | _ => (0, 0, 0)
  end%Z.

Definition key_lt (a b : Z * Z * Z) : Prop :=
  let '(a1, a2, a3) := a in
  let '(b1, b2, b3) := b in
  (a1 < b1 \/ (a1 = b1 /\ (a2 < b2 \/ (a2 = b2 /\ a3 < b3))))%Z.

(** Binary64 arithmetic with the identity standing for [std::exp] and
    [std::log], to evaluate the definitions on sample inputs. *)
Definition stand_in_ops : DoubleOps double := ops (fun x => x) (fun x => x).

End Binary64.

(** **** Exact real arithmetic

    The same operations on real numbers, without rounding.  This reading
    serves to evaluate the graph functions on sample inputs and to follow
    the algebra behind the formula of [merge_weights]; it is not the
    arithmetic the program runs, and what holds here need not hold of the
    doubles the program computes. *)

Module Exact.

Definition Rltb (x y : R) : bool := if Rlt_dec x y then true else false.

(** The sign of a real: zero counts as positive, as does [+0.0]. *)
Definition copysign (x y : R) : R :=
  if Rle_dec 0 y then Rabs x else (- Rabs x)%R.

Definition ops : DoubleOps R := {|
  d_zero := 0%R;
  d_one := 1%R;
  d_add := Rplus;
  d_sub := Rminus;
  d_mul := Rmult;
  d_div := Rdiv;
  d_neg := Ropp;
  d_lt := Rltb;
  d_abs := Rabs;
  d_copysign := copysign;
  d_exp := exp;
  d_log := ln
|}.

End Exact.

(** *** [size_t] arithmetic: unsigned, modulo [2^64] *)

Definition SIZE_MAX : N := 2 ^ 64 - 1.

Definition size_t_add (a b : N) : N := ((a + b) mod 2 ^ 64)%N.

Definition size_t_sub (a b : N) : N := ((a + 2 ^ 64 - b) mod 2 ^ 64)%N.

Definition size_t_mul (a b : N) : N := ((a * b) mod 2 ^ 64)%N.

(** *** Outcomes of a call: normal return, [std::invalid_argument], or an
    access outside a vector (undefined behaviour in C++). *)

Inductive outcome (A : Type) : Type :=
| Ok (a : A)
| Invalid_argument (what : string)
| Out_of_bounds.

Arguments Ok {A} a.
Arguments Invalid_argument {A} what.
Arguments Out_of_bounds {A}.

#[global] Instance outcome_ret : MRet outcome := fun A a => Ok a.

#[global] Instance outcome_bind : MBind outcome := fun A B k m =>
  match m with
  | Ok a => k a
  | Invalid_argument s => Invalid_argument s
  | Out_of_bounds => Out_of_bounds
  end.

Definition is_invalid_argument {A} (m : outcome A) : bool :=
  match m with Invalid_argument _ => true | _ => false end.

(** *** The intermediate weighted graph of [stim_io] *)

Module stim_io.
Section Graph.

Context {D : Type} `{DoubleOps D}.

(** Modelled from the spec: [Neighbor], declared in [stim_io.h], which is
    not among the sources: an entry [{node, weight, observables}] of an
    adjacency list, with the fields that [stim_io.cc] reads and writes.
    [node] points into the [nodes] vector, which is never resized after
    construction, so a pointer [&nodes[v]] is the index [v]; [nullptr]
    stands for the boundary. *)
Record Neighbor : Type := {
  node : option N;
  weight : D;
  observables : list N
}.

(** Modelled from the spec: [IntermediateWeightedGraph], declared in
    [stim_io.h]: for each node the vector of its neighbors, and the two
    counts that [stim_io.cc] reads. *)
Record IntermediateWeightedGraph : Type := {
  nodes : list (list Neighbor);
  num_nodes : N;
  num_observables : N
}.

(** Modelled from the spec: the constructor, whose body is in
    [stim_io.h]; it is taken to give [nodes] one empty adjacency list per
    node, as the bounds checks of [stim_io.cc] expect. *)
Definition new_graph (n_nodes n_observables : N) : IntermediateWeightedGraph :=
  {| nodes := replicate (N.to_nat n_nodes) [];
     num_nodes := n_nodes;
     num_observables := n_observables |}.

Definition size {A} (v : list A) : N := N.of_nat (length v).

Definition at_index {A} (v : list A) (i : N) : option A := v !! N.to_nat i.

Definition set_nodes (g : IntermediateWeightedGraph) (ns : list (list Neighbor)) :=
  {| nodes := ns; num_nodes := num_nodes g; num_observables := num_observables g |}.

Definition set_weight (w : D) (nb : Neighbor) : Neighbor :=
  {| node := node nb; weight := w; observables := observables nb |}.

(** [std::find_if] over an adjacency list for the entry that points to
    [target]: the position and the entry of the first match. *)
Definition find_neighbor (target : option N) (adj : list Neighbor)
  : option (nat * Neighbor) :=
  list_find (fun nb => node nb = target) adj.

Definition push_back (nb : Neighbor) (i : N) (ns : list (list Neighbor)) :=
  alter (fun adj => adj ++ [nb]) (N.to_nat i) ns.

Definition assign_weight (w : D) (i : N) (k : nat) (ns : list (list Neighbor)) :=
  alter (alter (set_weight w) k) (N.to_nat i) ns.

Definition exceeds_message (n : N) (g : IntermediateWeightedGraph) : string :=
  ("Node " +:+ pretty n +:+ " exceeds number of nodes in graph (" +:+
   pretty (num_nodes g) +:+ ")")%string.

Definition add_or_merge_edge (g : IntermediateWeightedGraph)
    (u v : N) (w : D) (obs : list N) : outcome IntermediateWeightedGraph :=
  let larger_node := N.max u v in
  if (size (nodes g) <? size_t_add larger_node 1)%N then
    Invalid_argument (exceeds_message larger_node g)
  else
    match at_index (nodes g) u, at_index (nodes g) v with
    | Some adj_u, Some _ =>
      match find_neighbor (Some v) adj_u with
      | None =>
        let ns1 := push_back {| node := Some v; weight := w; observables := obs |} u (nodes g) in
        let ns2 := push_back {| node := Some u; weight := w; observables := obs |} v ns1 in
        Ok (set_nodes g ns2)
      | Some (k, it) =>
        let new_weight := merge_weights (weight it) w in
        let ns1 := assign_weight new_weight u k (nodes g) in
        match at_index ns1 v with
        | Some adj_v =>
          match find_neighbor (Some u) adj_v with
          | Some (k2, _) => Ok (set_nodes g (assign_weight new_weight v k2 ns1))
          | None => Ok (set_nodes g ns1)
          end
        | None => Out_of_bounds
        end
      end
    | _, _ => Out_of_bounds
    end.

Definition add_or_merge_boundary_edge (g : IntermediateWeightedGraph)
    (u : N) (w : D) (obs : list N) : outcome IntermediateWeightedGraph :=
  if (size_t_sub (size (nodes g)) 1 <? u)%N then
    Invalid_argument (exceeds_message u g)
  else
    match at_index (nodes g) u with
    | Some adj_u =>
      match find_neighbor None adj_u with
      | None =>
        Ok (set_nodes g
              (push_back {| node := None; weight := w; observables := obs |} u (nodes g)))
      | Some (k, it) =>
        Ok (set_nodes g (assign_weight (merge_weights w (weight it)) u k (nodes g)))
      end
    | None => Out_of_bounds
    end.

Definition handle_dem_instruction (g : IntermediateWeightedGraph)
    (p : D) (detectors : list N) (obs : list N) : outcome IntermediateWeightedGraph :=
  match detectors with
  | [d0; d1] => add_or_merge_edge g d0 d1 (log_odds p) obs
  | [d0] => add_or_merge_boundary_edge g d0 (log_odds p) obs
  | _ => Ok g
  end.

(** One turn of the inner loop of [max_abs_weight]. *)
Definition max_abs_step (m : D) (neighbor : Neighbor) : D :=
  if d_lt m (d_abs (weight neighbor)) then d_abs (weight neighbor) else m.

(** [pm::IntermediateWeightedGraph::max_abs_weight] *)
Definition max_abs_weight (g : IntermediateWeightedGraph) : D :=
  foldl (fun m adj => foldl max_abs_step m adj) d_zero (nodes g).

(** [stim::DemTarget]: a relative detector id, an observable id or a
    separator ([val()] is the id). *)
Inductive DemTarget : Type :=
| relative_detector_id (val : N)
| observable_id (val : N)
| separator.

Record DemInstruction : Type := {
  arg_data : list D;
  target_data : list DemTarget
}.

(** [stim::DetectorErrorModel], as far as this file reads it: the two
    counts and the sequence of flattened error instructions that
    [iter_flatten_error_instructions] hands to its callback. *)
Record DetectorErrorModel : Type := {
  count_detectors : N;
  count_observables : N;
  flattened_error_instructions : list DemInstruction
}.

(** The local state of the callback: [dets], [observables], and the
    graph it captured by reference. *)
Definition callback_state : Type :=
  (list N * list N * IntermediateWeightedGraph)%type.

(** One turn of the loop over [instruction.target_data]. *)
Definition target_step (p : D) (st : callback_state) (target : DemTarget)
  : outcome callback_state :=
  let '(dets, obs, g) := st in
  match target with
  | relative_detector_id val => Ok (dets ++ [val], obs, g)
  | observable_id val => Ok (dets, obs ++ [val], g)
  | separator =>
    if d_lt d_zero p then
      g' ← handle_dem_instruction g p dets obs;
      Ok ([], [], g')
    else Ok st
  end.

Fixpoint for_each {S A} (step : S -> A -> outcome S) (st : S) (l : list A)
  : outcome S :=
  match l with
  | [] => Ok st
  | x :: l' => st' ← step st x; for_each step st' l'
  end.

(** The callback given to [iter_flatten_error_instructions]. *)
Definition instruction_callback (g : IntermediateWeightedGraph)
    (instruction : DemInstruction) : outcome IntermediateWeightedGraph :=
  match arg_data instruction with
  | [] => Out_of_bounds
  | p :: _ =>
    st ← for_each (target_step p) ([], [], g) (target_data instruction);
    let '(dets, obs, g') := st in
    if d_lt d_zero p then handle_dem_instruction g' p dets obs else Ok g'
  end.

Definition detector_error_model_to_weighted_graph (dem : DetectorErrorModel)
  : outcome IntermediateWeightedGraph :=
  for_each instruction_callback
    (new_graph (count_detectors dem) (count_observables dem))
    (flattened_error_instructions dem).

(** The components of an instruction: the detectors and observables
    between two separators, in order. *)
Fixpoint components_from (dets obs : list N) (targets : list DemTarget)
  : list (list N * list N) :=
  match targets with
  | [] => [(dets, obs)]
  | relative_detector_id val :: ts => components_from (dets ++ [val]) obs ts
  | observable_id val :: ts => components_from dets (obs ++ [val]) ts
  | separator :: ts => (dets, obs) :: components_from [] [] ts
  end.

Definition components (targets : list DemTarget) : list (list N * list N) :=
  components_from [] [] targets.

Definition handle_component (p : D) (g : IntermediateWeightedGraph)
    (c : list N * list N) : outcome IntermediateWeightedGraph :=
  handle_dem_instruction g p (fst c) (snd c).

(** A component is incorporated when it triggers one or two detectors. *)
Definition incorporated (c : list N * list N) : bool :=
  (length (fst c) =? 1)%nat || (length (fst c) =? 2)%nat.

(** The error mechanisms of a model that have a probability above zero
    and trigger one or two detectors, in the order of the model. *)
Definition mechanisms_of (instruction : DemInstruction)
  : list (D * (list N * list N)) :=
  match arg_data instruction with
  | [] => []
  | p :: _ =>
    if d_lt d_zero p then
      map (pair p) (List.filter incorporated (components (target_data instruction)))
    else []
  end.

Definition mechanisms (dem : DetectorErrorModel) : list (D * (list N * list N)) :=
  flat_map mechanisms_of (flattened_error_instructions dem).

Definition handle_mechanism (g : IntermediateWeightedGraph)
    (m : D * (list N * list N)) : outcome IntermediateWeightedGraph :=
  handle_component (fst m) g (snd m).

(** **** Observations on a graph, used to state its properties *)

(** [i] is the index of a node of [g]. *)
Definition in_range (g : IntermediateWeightedGraph) (i : N) : Prop :=
  (i < size (nodes g))%N.

(** The size of [nodes] is a [size_t] value. *)
Definition size_representable (g : IntermediateWeightedGraph) : Prop :=
  (size (nodes g) <= SIZE_MAX)%N.

(** [nodes[i]] *)
Definition adjacency (g : IntermediateWeightedGraph) (i : N) : list Neighbor :=
  default [] (at_index (nodes g) i).

(** [nodes[i][k]] *)
Definition entry (g : IntermediateWeightedGraph) (i : N) (k : nat) : option Neighbor :=
  adjacency g i !! k.

(** A graph without its weights. *)
Definition erase_weight (nb : Neighbor) : option N * list N :=
  (node nb, observables nb).

Definition shape (g : IntermediateWeightedGraph)
  : list (list (option N * list N)) * N * N :=
  (map (map erase_weight) (nodes g), num_nodes g, num_observables g).

(** What a [std::find_if] over [nodes[a]] for the target [t] sees: the
    weight and the observables of the first entry pointing to [t]. *)
Definition lookup_of (r : option (nat * Neighbor)) : option (D * list N) :=
  (fun r => (weight (snd r), observables (snd r))) <$> r.

Definition edge_lookup (g : IntermediateWeightedGraph) (a : N) (t : option N)
  : option (D * list N) :=
  lookup_of (find_neighbor t (adjacency g a)).

(** Every edge is seen alike from both of its ends. *)
Definition undirected (g : IntermediateWeightedGraph) : Prop :=
  forall a b, edge_lookup g a (Some b) = edge_lookup g b (Some a).

(** The value an edge has after [add_or_merge]: merged into the value it
    had, or new. *)
Definition merged_into (found : option (D * list N)) (merge : D -> D)
    (w : D) (obs : list N) : D * list N :=
  match found with
  | Some (w0, obs0) => (merge w0, obs0)
  | None => (w, obs)
  end.

(** What one error mechanism does to the value that a search of
    [nodes[a]] for [t] sees: a mechanism on two detectors merges into the
    edge between them, seen from either end; a mechanism on one detector
    merges into its boundary edge; any other leaves the value alone. *)
Definition mechanism_value (found : option (D * list N))
    (m : D * (list N * list N)) (a : N) (t : option N) : option (D * list N) :=
  let '(p, (dets, obs)) := m in
  match dets with
  | [u; v] =>
    if decide ((a = u /\ t = Some v) \/ (a = v /\ t = Some u))
    then Some (merged_into found (fun w0 => merge_weights w0 (log_odds p))
                 (log_odds p) obs)
    else found
  | [u] =>
    if decide (a = u /\ t = None)
    then Some (merged_into found (fun w0 => merge_weights (log_odds p) w0)
                 (log_odds p) obs)
    else found
  | _ => found
  end.

(** The value of an edge after a sequence of error mechanisms. *)
Definition mechanisms_value (found : option (D * list N))
    (ms : list (D * (list N * list N))) (a : N) (t : option N)
  : option (D * list N) :=
  foldl (fun found m => mechanism_value found m a t) found ms.

(** Two graphs with as many nodes and the same counts. *)
Definition same_counts (g g' : IntermediateWeightedGraph) : Prop :=
  size (nodes g') = size (nodes g)
  /\ num_nodes g' = num_nodes g
  /\ num_observables g' = num_observables g.

(** The detectors of the error mechanisms of a model are nodes of its
    graph. *)
Definition detectors_in_range (dem : DetectorErrorModel) : Prop :=
  Forall (fun m => Forall (fun d => (d < count_detectors dem)%N) (fst (snd m)))
         (mechanisms dem).

End Graph.

Arguments Neighbor D : clear implicits.
Arguments IntermediateWeightedGraph D : clear implicits.
Arguments DemInstruction D : clear implicits.
Arguments DetectorErrorModel D : clear implicits.

(** **** Conversion to the matcher *)

(** The graphs and flooders are defined in files that this development
    does not cover; their types, their constructors and the operations
    called on them form an interface.  [iter_discretized_edges] is a
    template of the header: it calls [edge_func] and [boundary_edge_func]
    on the discretized edges, which here thread the object [S] they capture
    by reference, and returns the normalising constant.  [sizeof_obs_int]
    is [sizeof(pm::obs_int)]. *)
Class Collaborators (D : Type) : Type := {
  MatchingGraph : Type;
  SearchGraph : Type;
  GraphFlooder : Type;
  SearchFlooder : Type;
  new_MatchingGraph : N -> N -> MatchingGraph;
  MatchingGraph_add_edge : N -> N -> Z -> list N -> MatchingGraph -> MatchingGraph;
  MatchingGraph_add_boundary_edge : N -> Z -> list N -> MatchingGraph -> MatchingGraph;
  set_normalising_constant : D -> MatchingGraph -> MatchingGraph;
  new_SearchGraph : N -> SearchGraph;
  SearchGraph_add_edge : N -> N -> Z -> list N -> SearchGraph -> SearchGraph;
  SearchGraph_add_boundary_edge : N -> Z -> list N -> SearchGraph -> SearchGraph;
  new_GraphFlooder : MatchingGraph -> GraphFlooder;
  new_SearchFlooder : SearchGraph -> SearchFlooder;
  sync_negative_weight_observables_and_detection_events : GraphFlooder -> GraphFlooder;
  iter_discretized_edges :
    forall S : Type,
      IntermediateWeightedGraph D -> N ->
      (N -> N -> Z -> list N -> S -> S) ->
      (N -> Z -> list N -> S -> S) ->
      S -> D * S;
  sizeof_obs_int : N
}.

Section Mwpm.

Context {D : Type} `{DoubleOps D} `{Collaborators D}.

(** Modelled from the spec: [pm::Mwpm], whose declaration is not among
    the sources.  It holds the matching flooder (the member [flooder] that
    [to_mwpm] uses) and the search flooder when its constructor was given
    one. *)
Record Mwpm : Type := {
  flooder : GraphFlooder;
  search_flooder : option SearchFlooder
}.

Definition to_matching_graph (g : IntermediateWeightedGraph D)
    (num_distinct_weights : N) : MatchingGraph :=
  let matching_graph := new_MatchingGraph (size (nodes g)) (num_observables g) in
  let '(normalising_constant, matching_graph) :=
    iter_discretized_edges MatchingGraph g num_distinct_weights
      MatchingGraph_add_edge MatchingGraph_add_boundary_edge matching_graph in
  set_normalising_constant normalising_constant matching_graph.

Definition to_search_graph (g : IntermediateWeightedGraph D)
    (num_distinct_weights : N) : SearchGraph :=
  let search_graph := new_SearchGraph (size (nodes g)) in
  snd (iter_discretized_edges SearchGraph g num_distinct_weights
         SearchGraph_add_edge SearchGraph_add_boundary_edge search_graph).

Definition sync (mwpm : Mwpm) : Mwpm :=
  {| flooder := sync_negative_weight_observables_and_detection_events (flooder mwpm);
     search_flooder := search_flooder mwpm |}.

Definition to_mwpm (g : IntermediateWeightedGraph D)
    (num_distinct_weights : N) : Mwpm :=
  if (size_t_mul sizeof_obs_int 8 <? num_observables g)%N then
    sync {| flooder := new_GraphFlooder (to_matching_graph g num_distinct_weights);
            search_flooder :=
              Some (new_SearchFlooder (to_search_graph g num_distinct_weights)) |}
  else
    sync {| flooder := new_GraphFlooder (to_matching_graph g num_distinct_weights);
            search_flooder := None |}.

End Mwpm.

(** The interface can be implemented.  In this instance, which stands
    for none of the repository's classes, a graph is the list of the edges
    added to it, a flooder is its graph, every edge gets the weight 1, and
    [obs_int] is a 64-bit word. *)
Definition listing_collaborators {D : Type} `{DoubleOps D} : Collaborators D := {|
  MatchingGraph := list (N * option N * Z * list N);
  SearchGraph := list (N * option N * Z * list N);
  GraphFlooder := list (N * option N * Z * list N);
  SearchFlooder := list (N * option N * Z * list N);
  new_MatchingGraph := fun _ _ => [];
  MatchingGraph_add_edge := fun u v w obs mg => mg ++ [(u, Some v, w, obs)];
  MatchingGraph_add_boundary_edge := fun u w obs mg => mg ++ [(u, None, w, obs)];
  set_normalising_constant := fun _ mg => mg;
  new_SearchGraph := fun _ => [];
  SearchGraph_add_edge := fun u v w obs sg => sg ++ [(u, Some v, w, obs)];
  SearchGraph_add_boundary_edge := fun u w obs sg => sg ++ [(u, None, w, obs)];
  new_GraphFlooder := fun mg => mg;
  new_SearchFlooder := fun sg => sg;
  sync_negative_weight_observables_and_detection_events := fun fl => fl;
  iter_discretized_edges := fun S g _ edge_func boundary_edge_func s =>
    (d_one,
     foldl (fun s '(i, adj) =>
              foldl (fun s nb =>
                       match node nb with
                       | Some j => if (N.of_nat i <? j)%N
                                   then edge_func (N.of_nat i) j 1%Z (observables nb) s
                                   else s
                       | None => boundary_edge_func (N.of_nat i) 1%Z (observables nb) s
                       end) s adj)
           s (imap pair (nodes g)));
  sizeof_obs_int := 8
|}.

End stim_io.

(** *** The flooder's event queue and clock ([graph_flooder.h]) *)

Module graph_flooder.

(** Modelled from the spec: [time_int], whose typedef is not among the
    sources; logical times are integers. *)
Definition time_int : Type := Z.

(** Modelled from the spec: [TentativeEvent], declared in [events.h],
    which is not among the sources.  An event is stamped with the logical
    time at which it would fire, carries a sequence number that orders
    events of equal time, and captures the validity token of each
    authority (region or node-edge slot) it involves. *)
Record TentativeEvent : Type := {
  event_time : time_int;
  sequence : N;
  captured : list (N * N)
}.

(** Modelled from the spec: [operator>] on events, absent from the
    sources.  Events are ordered by logical time, ties by sequence
    number. *)
Definition event_gt (a b : TentativeEvent) : bool :=
  (event_time b <? event_time a)%Z
  || ((event_time a =? event_time b)%Z && (sequence b <? sequence a)%N).

(** [class Compare]: [operator()(a, b)] is [*a > *b]. *)
Definition Compare (a b : TentativeEvent) : bool := event_gt a b.

(** [std::priority_queue<T, std::vector<T>, Cmp>], kept as the list of
    its elements with [top()] first, so that [pop()] removes the head:
    [push] puts the new element before the first one that [Cmp] ranks
    below it. *)
Section PriorityQueue.
Context {T : Type} (cmp : T -> T -> bool).

Fixpoint pq_push (e : T) (q : list T) : list T :=
  match q with
  | [] => [e]
  | x :: q' => if cmp x e then e :: q else x :: pq_push e q'
  end.

End PriorityQueue.

(** [class GraphFlooder].  [queue] and [time] are the fields of the
    header.  Modelled from the spec: of [graph] only the current validity
    token of every authority is kept ([tokens]), and [next_sequence] is
    the counter behind the sequence numbers. *)
Record GraphFlooder : Type := {
  tokens : N -> N;
  queue : list TentativeEvent;
  time : time_int;
  next_sequence : N
}.

(** Modelled from the spec: the constructor, whose body is not among the
    sources, starts with an empty queue at time zero. *)
Definition new_GraphFlooder : GraphFlooder :=
  {| tokens := fun _ => 0%N; queue := []; time := 0%Z; next_sequence := 0%N |}.

(** Modelled from the spec: an event is live when every token it
    captured still is the current token of its authority. *)
Definition is_live (current : N -> N) (e : TentativeEvent) : bool :=
  forallb (fun '(a, tok) => (current a =? tok)%N) (captured e).

(** Modelled from the spec: advancing the token of an authority
    invalidates the event that occupied it. *)
Definition advance (a : N) (current : N -> N) : N -> N :=
  fun b => if (b =? a)%N then N.succ (current b) else current b.

Definition invalidate (f : GraphFlooder) (authorities : list N) : GraphFlooder :=
  {| tokens := foldr advance (tokens f) authorities;
     queue := queue f;
     time := time f;
     next_sequence := next_sequence f |}.

(** Modelled from the spec: scheduling ([graph_flooder.cc] is not among
    the sources).  The events that occupied the authorities are
    invalidated, and a new event for [event_time] is installed in the
    queue. *)
Definition schedule (f : GraphFlooder) (authorities : list N)
    (t : time_int) : GraphFlooder :=
  let current := foldr advance (tokens f) authorities in
  let e := {| event_time := t;
              sequence := next_sequence f;
              captured := map (fun a => (a, current a)) authorities |} in
  {| tokens := current;
     queue := pq_push Compare e (queue f);
     time := time f;
     next_sequence := N.succ (next_sequence f) |}.

(** Modelled from the spec: popping until a live event is on top;
    stale events are dropped silently. *)
Fixpoint pop_live (current : N -> N) (q : list TentativeEvent)
  : option TentativeEvent * list TentativeEvent :=
  match q with
  | [] => (None, [])
  | e :: q' => if is_live current e then (Some e, q') else pop_live current q'
  end.

(** Modelled from the spec: [next_event] ([graph_flooder.cc] is not among
    the sources) advances the clock to the next live tentative event and
    returns it; with no live event left it returns nothing. *)
Definition next_event (f : GraphFlooder) : option TentativeEvent * GraphFlooder :=
  match pop_live (tokens f) (queue f) with
  | (Some e, q') =>
    (Some e, {| tokens := tokens f; queue := q';
                time := event_time e; next_sequence := next_sequence f |})
  | (None, q') =>
    (None, {| tokens := tokens f; queue := q';
              time := time f; next_sequence := next_sequence f |})
  end.

(** Modelled from the spec: what the driver does to a flooder between
    its creation and the end of a run.  Events are scheduled at future
    times only: the collision time of two regions, or the time at which
    a shrinking region reaches radius zero, is never before the clock. *)
Inductive step : GraphFlooder -> option TentativeEvent -> GraphFlooder -> Prop :=
| step_schedule f authorities t :
    (time f <= t)%Z -> step f None (schedule f authorities t)
| step_invalidate f authorities :
    step f None (invalidate f authorities)
| step_next_event f :
    step f (fst (next_event f)) (snd (next_event f)).

(** A run, with the event returned (if any) and the flooder reached at
    each step. *)
Inductive run : GraphFlooder -> list (option TentativeEvent * GraphFlooder) -> Prop :=
| run_done f : run f []
| run_step f o f' trace :
    step f o f' -> run f' trace -> run f ((o, f') :: trace).

(** The events that the [next_event] calls of a run returned. *)
Definition returned (trace : list (option TentativeEvent * GraphFlooder))
  : list TentativeEvent :=
  omap fst trace.

(** The values of the clock along a run. *)
Definition clocks (f : GraphFlooder)
    (trace : list (option TentativeEvent * GraphFlooder)) : list time_int :=
  time f :: map (fun s => time (snd s)) trace.

(** The queue holds its events in ascending order of time, none of them
    before [t]. *)
Fixpoint ascending_from (t : time_int) (q : list TentativeEvent) : Prop :=
  match q with
  | [] => True
  | e :: q' => (t <= event_time e)%Z /\ ascending_from (event_time e) q'
  end.

Definition queue_ordered (f : GraphFlooder) : Prop :=
  ascending_from (time f) (queue f).

End graph_flooder.

(** *** Sample inputs *)

Module samples.

Import stim_io graph_flooder.

Local Open Scope N_scope.

(** Two nodes joined by one edge flipping observable 0, with a boundary
    edge on node 0. *)
Definition two_nodes : IntermediateWeightedGraph R :=
  {| nodes := [ [ {| node := Some 1; weight := 1%R; observables := [0] |};
                  {| node := None; weight := 2%R; observables := [] |} ];
                [ {| node := Some 0; weight := 1%R; observables := [0] |} ] ];
     num_nodes := 2;
     num_observables := 1 |}.

(** [error(0.25) D0 D1 L0 ^ D0], then [error(0.5) D0 D1 D2]. *)
Definition two_errors : DetectorErrorModel R :=
  {| count_detectors := 3;
     count_observables := 1;
     flattened_error_instructions :=
       [ {| arg_data := [(/ 4)%R];
            target_data := [relative_detector_id 0; relative_detector_id 1;
                            observable_id 0; separator; relative_detector_id 0] |};
         {| arg_data := [(/ 2)%R];
            target_data := [relative_detector_id 0; relative_detector_id 1;
                            relative_detector_id 2] |} ] |}.

(** A run: an event for time 2 on authority 1, an event for time 1 on
    authority 2, an event for time 5 on authority 1 again (which
    invalidates the first), then three calls of [next_event]. *)
Definition sample_trace : list (option TentativeEvent * GraphFlooder) :=
  let f1 := schedule new_GraphFlooder [1] 2%Z in
  let f2 := schedule f1 [2] 1%Z in
  let f3 := schedule f2 [1] 5%Z in
  let r4 := next_event f3 in
  let r5 := next_event (snd r4) in
  let r6 := next_event (snd r5) in
  [(None, f1); (None, f2); (None, f3); r4; r5; r6].

(** Two nodes after [add_or_merge_edge(0, 1, 3, {5})]. *)
Definition one_edge : IntermediateWeightedGraph R :=
  {| nodes := [ [ {| node := Some 1; weight := 3%R; observables := [5] |} ];
                [ {| node := Some 0; weight := 3%R; observables := [5] |} ] ];
     num_nodes := 2;
     num_observables := 1 |}.

(** The same after [add_or_merge_edge(0, 1, 4, {6})]. *)
Definition one_edge_merged : IntermediateWeightedGraph R :=
  {| nodes :=
       [ [ {| node := Some 1; weight := @merge_weights R Exact.ops 3%R 4%R;
              observables := [5] |} ];
         [ {| node := Some 0; weight := @merge_weights R Exact.ops 3%R 4%R;
              observables := [5] |} ] ];
     num_nodes := 2;
     num_observables := 1 |}.

(** Two nodes after [add_or_merge_boundary_edge(0, 3, {5})]. *)
Definition one_boundary_edge : IntermediateWeightedGraph R :=
  {| nodes := [ [ {| node := None; weight := 3%R; observables := [5] |} ]; [] ];
     num_nodes := 2;
     num_observables := 1 |}.

(** Three nodes after [add_or_merge_edge(0, 1, 3, {5})]. *)
Definition path_start : IntermediateWeightedGraph R :=
  {| nodes := [ [ {| node := Some 1; weight := 3%R; observables := [5] |} ];
                [ {| node := Some 0; weight := 3%R; observables := [5] |} ];
                [] ];
     num_nodes := 3;
     num_observables := 1 |}.

(** The same after [add_or_merge_edge(1, 2, 4, {6})]. *)
Definition path : IntermediateWeightedGraph R :=
  {| nodes := [ [ {| node := Some 1; weight := 3%R; observables := [5] |} ];
                [ {| node := Some 0; weight := 3%R; observables := [5] |};
                  {| node := Some 2; weight := 4%R; observables := [6] |} ];
                [ {| node := Some 1; weight := 4%R; observables := [6] |} ] ];
     num_nodes := 3;
     num_observables := 1 |}.

(** Three nodes, not undirected: node 2 lists node 0, node 0 does not
    list node 2. *)
Definition lopsided : IntermediateWeightedGraph R :=
  {| nodes := [ []; [];
                [ {| node := Some 0; weight := 7%R; observables := [9] |} ] ];
     num_nodes := 3;
     num_observables := 1 |}.

(** [lopsided] after [add_or_merge_edge(0, 1, 3, {5})]. *)
Definition lopsided_edge : IntermediateWeightedGraph R :=
  {| nodes := [ [ {| node := Some 1; weight := 3%R; observables := [5] |} ];
                [ {| node := Some 0; weight := 3%R; observables := [5] |} ];
                [ {| node := Some 0; weight := 7%R; observables := [9] |} ] ];
     num_nodes := 3;
     num_observables := 1 |}.

(** The same after [add_or_merge_edge(0, 1, 4, {6})]. *)
Definition lopsided_edge_merged : IntermediateWeightedGraph R :=
  {| nodes :=
       [ [ {| node := Some 1; weight := @merge_weights R Exact.ops 3%R 4%R;
              observables := [5] |} ];
         [ {| node := Some 0; weight := @merge_weights R Exact.ops 3%R 4%R;
              observables := [5] |} ];
         [ {| node := Some 0; weight := 7%R; observables := [9] |} ] ];
     num_nodes := 3;
     num_observables := 1 |}.

(** The model [two_errors] over binary64: probabilities 0.25 and 0.5. *)
Definition binary64_errors : DetectorErrorModel Binary64.double :=
  {| count_detectors := 3;
     count_observables := 1;
     flattened_error_instructions :=
       [ {| arg_data := [S754_finite false 4503599627370496 (-54)];
            target_data := [relative_detector_id 0; relative_detector_id 1;
                            observable_id 0; separator; relative_detector_id 0] |};
         {| arg_data := [S754_finite false 4503599627370496 (-53)];
            target_data := [relative_detector_id 0; relative_detector_id 1;
                            relative_detector_id 2] |} ] |}.

(** The graph read from [binary64_errors], with the stand-ins for
    [std::exp] and [std::log]. *)
Definition binary64_graph : IntermediateWeightedGraph Binary64.double :=
  Eval vm_compute in
    match @detector_error_model_to_weighted_graph _ Binary64.stand_in_ops
            binary64_errors with
    | Ok g => g
    | _ => new_graph 0 0
    end.

End samples.

(** ** Part II: properties *)

(** *** Merging weights over IEEE-754 binary64 *)

Section Binary64Facts.

Import Binary64.

Lemma SFadd_comm (x y : spec_float) : SFadd prec emax x y = SFadd prec emax y x.
Proof.
  destruct x as [sx|sx| |sx mx ex], y as [sy|sy| |sy my ey]; try reflexivity;
    try (destruct sx, sy; reflexivity).
  unfold SFadd. rewrite (Z.min_comm ey ex). f_equal. apply Z.add_comm.
Qed.

Lemma SFmul_comm (x y : spec_float) : SFmul prec emax x y = SFmul prec emax y x.
Proof.
  destruct x as [sx|sx| |sx mx ex], y as [sy|sy| |sy my ey]; try reflexivity;
    try (destruct sx, sy; reflexivity).
  unfold SFmul.
  by rewrite (xorb_comm sy sx), (Pos.mul_comm my mx), (Z.add_comm ey ex).
Qed.

(** Rounding to nearest even does not look at the sign. *)
Lemma SFabs_binary_round_aux s s' m e l :
  SFabs (binary_round_aux prec emax s m e l)
  = SFabs (binary_round_aux prec emax s' m e l).
Proof.
  unfold binary_round_aux.
  destruct (shr_fexp prec emax m e l) as [mrs' e'].
  destruct (shr_fexp prec emax _ e' loc_Exact) as [mrs'' e''].
  destruct (shr_m mrs''); try reflexivity.
  destruct (Z.leb _ _); reflexivity.
Qed.

Lemma SFabs_binary_normalize_opp m e :
  SFabs (binary_normalize prec emax (- m) e false)
  = SFabs (binary_normalize prec emax m e false).
Proof.
  destruct m as [|p|p]; try reflexivity;
    [change (- Z.pos p)%Z with (Z.neg p) | change (- Z.neg p)%Z with (Z.pos p)];
    unfold binary_normalize, binary_round;
    destruct (shl_align _ _ _) as [mz ez]; apply SFabs_binary_round_aux.
Qed.

(** [|x - y|] and [|y - x|] are the same binary64 value. *)
Lemma SFabs_sub_comm (x y : spec_float) :
  SFabs (SFsub prec emax x y) = SFabs (SFsub prec emax y x).
Proof.
  destruct x as [sx|sx| |sx mx ex], y as [sy|sy| |sy my ey]; try reflexivity;
    try (destruct sx, sy; reflexivity).
  unfold SFsub. rewrite (Z.min_comm ey ex), <- SFabs_binary_normalize_opp.
  do 2 f_equal. lia.
Qed.

(** On magnitudes of finite values [operator<] is asymmetric, and two
    magnitudes neither of which is below the other are equal. *)
Lemma SFltb_abs_cases (x y : spec_float) :
  is_finite x = true -> is_finite y = true ->
  (SFltb (SFabs y) (SFabs x) = true /\ SFltb (SFabs x) (SFabs y) = false)
  \/ (SFltb (SFabs y) (SFabs x) = false /\ SFltb (SFabs x) (SFabs y) = true)
  \/ SFabs x = SFabs y.
Proof.
  destruct x as [sx|sx| |sx mx ex], y as [sy|sy| |sy my ey]; try discriminate;
    intros _ _; unfold SFltb; simpl; auto.
  rewrite (Z.compare_antisym ex ey).
  destruct (ex ?= ey)%Z eqn:He; simpl; auto.
  apply Z.compare_eq in He. subst ey.
  change (Pos.compare_cont Eq my mx) with (my ?= mx)%positive.
  change (Pos.compare_cont Eq mx my) with (mx ?= my)%positive.
  rewrite (Pos.compare_antisym mx my).
  destruct (mx ?= my)%positive eqn:Hm; simpl; auto.
  apply Pos.compare_eq in Hm. subst my. auto.
Qed.

Lemma std_min_abs_comm (libm_exp libm_log : double -> double) (a b : double) :
  is_finite a = true -> is_finite b = true ->
  @std_min _ (ops libm_exp libm_log) (SFabs a) (SFabs b)
  = @std_min _ (ops libm_exp libm_log) (SFabs b) (SFabs a).
Proof.
  intros Ha Hb. unfold std_min. simpl.
  destruct (SFltb_abs_cases a b Ha Hb) as [[-> ->]|[[-> ->]| ->]]; reflexivity.
Qed.

End Binary64Facts.

(** C3. [merge_weights] is commutative on finite binary64 inputs, whatever
    functions the C library provides for [exp] and [log]:
    [merge_weights(a, b) = merge_weights(b, a)]. *)
Theorem merge_weights_comm_binary64
    (libm_exp libm_log : Binary64.double -> Binary64.double)
    (a b : Binary64.double) :
  Binary64.is_finite a = true ->
  Binary64.is_finite b = true ->
  @merge_weights _ (Binary64.ops libm_exp libm_log) a b
  = @merge_weights _ (Binary64.ops libm_exp libm_log) b a.
Proof.
  intros Ha Hb. unfold merge_weights.
  cbn [d_mul d_add d_sub d_abs d_neg d_copysign d_one d_exp d_log Binary64.ops].
  rewrite (std_min_abs_comm libm_exp libm_log a b Ha Hb).
  rewrite (SFmul_comm (Binary64.copysign _ a)), (SFadd_comm a b), (SFabs_sub_comm a b).
  reflexivity.
Qed.

Lemma merge_weights_comm_binary64_witness :
  let a := S754_finite false 6755399441055744 (-51) in      (* 3.0 *)
  let b := S754_finite true 4503599627370496 (-53) in       (* -0.5 *)
  Binary64.is_finite a = true /\ Binary64.is_finite b = true /\
  @merge_weights _ (Binary64.ops SFopp SFabs) a b
  = @merge_weights _ (Binary64.ops SFopp SFabs) b a.
Proof.
  intros a b. split; [reflexivity|]. split; [reflexivity|].
  apply (merge_weights_comm_binary64 SFopp SFabs a b); reflexivity.
Defined.

(** *** Merging weights in exact arithmetic *)

Section ExactFacts.

Local Open Scope R_scope.

#[local] Existing Instance Exact.ops.

(** [log(1 + exp(x)) = max(0, x) + log(1 + exp(-|x|))] *)
Lemma softplus_split (x : R) :
  ln (1 + exp x) = Rmax 0 x + ln (1 + exp (- Rabs x)).
Proof.
  pose proof (exp_pos x) as Hx. pose proof (exp_pos (- x)) as Hnx.
  unfold Rmax, Rabs. destruct (Rle_dec 0 x), (Rcase_abs x); try lra.
  - replace (1 + exp x) with (exp x * (1 + exp (- x))).
    + rewrite ln_mult, ln_exp by lra. reflexivity.
    + rewrite Rmult_plus_distr_l, <- exp_plus. replace (x + - x) with 0 by lra.
      rewrite exp_0. lra.
  - rewrite Ropp_involutive. lra.
Qed.

(** [log(exp(a) + exp(b)) = max(a, b) + log(1 + exp(-|a - b|))] *)
Lemma log_sum_exp_split (a b : R) :
  ln (exp a + exp b) = Rmax a b + ln (1 + exp (- Rabs (a - b))).
Proof.
  pose proof (exp_pos a) as Ha. pose proof (exp_pos b) as Hb.
  pose proof (exp_pos (a - b)) as Hab. pose proof (exp_pos (b - a)) as Hba.
  unfold Rmax, Rabs. destruct (Rle_dec a b), (Rcase_abs (a - b)); try lra.
  - replace (- - (a - b)) with (a - b) by lra.
    replace (exp a + exp b) with (exp b * (1 + exp (a - b))).
    + rewrite ln_mult, ln_exp by lra. reflexivity.
    + rewrite Rmult_plus_distr_l, <- exp_plus.
      replace (b + (a - b)) with a by lra. lra.
  - assert (a = b) by lra. subst b. replace (a - a) with 0 by lra.
    rewrite Ropp_0, exp_0. replace (exp a + exp a) with (exp a * (1 + 1)) by lra.
    rewrite ln_mult, ln_exp by lra. reflexivity.
  - replace (- (a - b)) with (b - a) by lra.
    replace (exp a + exp b) with (exp a * (1 + exp (b - a))).
    + rewrite ln_mult, ln_exp by lra. reflexivity.
    + rewrite Rmult_plus_distr_l, <- exp_plus.
      replace (a + (b - a)) with b by lra. lra.
Qed.

(** [sign(a) sign(b) min(|a|, |b|) = max(0, a + b) - max(a, b)] *)
Lemma signed_min_max (a b : R) :
  d_mul (d_mul (d_copysign d_one a) (d_copysign d_one b))
        (std_min (d_abs a) (d_abs b))
  = Rmax 0 (a + b) - Rmax a b.
Proof.
  unfold std_min. simpl. unfold Exact.copysign, Exact.Rltb, Rmax, Rabs.
  destruct (Rle_dec 0 a), (Rle_dec 0 b), (Rcase_abs 1), (Rcase_abs a), (Rcase_abs b);
    try lra;
    destruct (Rlt_dec _ _), (Rle_dec 0 (a + b)), (Rle_dec a b); lra.
Qed.

(** In exact arithmetic [merge_weights(a, b)] is
    [log((1 + exp(a + b)) / (exp(a) + exp(b)))]. *)
Lemma merge_weights_log_ratio (a b : R) :
  merge_weights a b = ln ((1 + exp (a + b)) / (exp a + exp b)).
Proof.
  pose proof (exp_pos a). pose proof (exp_pos b). pose proof (exp_pos (a + b)).
  unfold merge_weights. cbv zeta. rewrite signed_min_max. simpl.
  unfold Rdiv. rewrite ln_mult, ln_Rinv by (try apply Rinv_0_lt_compat; lra).
  rewrite (softplus_split (a + b)), (log_sum_exp_split a b). lra.
Qed.

Lemma merge_weights_comm_exact (a b : R) : merge_weights a b = merge_weights b a.
Proof.
  rewrite !merge_weights_log_ratio. by rewrite (Rplus_comm a b), (Rplus_comm (exp a)).
Qed.

End ExactFacts.

(** The formula of [merge_weights] read over the reals, where no
    operation rounds: for probabilities [p_a] and [p_b] strictly between
    0 and 1, merging [log((1 - p_a) / p_a)] and [log((1 - p_b) / p_b)]
    gives [log((1 - p_ab) / p_ab)] with
    [p_ab = p_a (1 - p_b) + p_b (1 - p_a)].  This is a fact about the
    formula, not about the values the program computes: on binary64 the
    two sides are rounded differently. *)
Lemma merge_weights_closed_form (p_a p_b : R) :
  (0 < p_a < 1)%R ->
  (0 < p_b < 1)%R ->
  let p_ab := (p_a * (1 - p_b) + p_b * (1 - p_a))%R in
  @merge_weights R Exact.ops (@log_odds R Exact.ops p_a) (@log_odds R Exact.ops p_b)
  = ln ((1 - p_ab) / p_ab).
Proof.
  intros Ha Hb p_ab. subst p_ab. rewrite merge_weights_log_ratio.
  unfold log_odds. simpl.
  assert (0 < (1 - p_a) / p_a)%R by (apply Rdiv_lt_0_compat; lra).
  assert (0 < (1 - p_b) / p_b)%R by (apply Rdiv_lt_0_compat; lra).
  rewrite exp_plus, !exp_ln by assumption.
  assert (0 < p_a * (1 - p_b) + p_b * (1 - p_a))%R by nra.
  f_equal. field. repeat split; lra.
Qed.

Lemma merge_weights_closed_form_witness :
  (0 < / 4 < 1)%R /\ (0 < / 3 < 1)%R /\
  @merge_weights R Exact.ops
    (@log_odds R Exact.ops (/ 4)%R) (@log_odds R Exact.ops (/ 3)%R)
  = ln ((1 - (/ 4 * (1 - / 3) + / 3 * (1 - / 4))) / (/ 4 * (1 - / 3) + / 3 * (1 - / 4))).
Proof.
  split; [lra|]. split; [lra|].
  apply (merge_weights_closed_form (/ 4)%R (/ 3)%R); lra.
Defined.

(** *** Building the intermediate weighted graph *)

Section GraphFacts.

Import stim_io.

Context {D : Type} `{DoubleOps D}.

Implicit Types (g : IntermediateWeightedGraph D) (ns : list (list (Neighbor D))).
Implicit Types (adj : list (Neighbor D)) (u v i : N) (w : D) (obs : list N).

(** **** The guards *)

Lemma edge_guard_in_range {A} (l : list A) u v :
  (u < size l)%N -> (v < size l)%N ->
  (size l <? size_t_add (N.max u v) 1)%N = false.
Proof.
  intros Hu Hv. apply N.ltb_ge. unfold size_t_add.
  etrans; [apply N.Div0.mod_le|]. lia.
Qed.

Lemma edge_guard_out_of_range {A} (l : list A) u v :
  (size l <= N.max u v)%N -> (N.max u v < SIZE_MAX)%N ->
  (size l <? size_t_add (N.max u v) 1)%N = true.
Proof.
  unfold SIZE_MAX. intros Hle Hmax. apply N.ltb_lt. unfold size_t_add.
  rewrite N.mod_small; lia.
Qed.

Lemma boundary_guard_in_range {A} (l : list A) u :
  (size l <= SIZE_MAX)%N -> (u < size l)%N ->
  (size_t_sub (size l) 1 <? u)%N = false.
Proof.
  unfold SIZE_MAX. intros Hl Hu. apply N.ltb_ge. unfold size_t_sub.
  replace (size l + 2 ^ 64 - 1)%N with ((size l - 1) + 1 * 2 ^ 64)%N by lia.
  rewrite N.Div0.mod_add, N.mod_small; lia.
Qed.

Lemma boundary_guard_out_of_range {A} (l : list A) u :
  (0 < size l <= SIZE_MAX)%N -> (size l <= u)%N ->
  (size_t_sub (size l) 1 <? u)%N = true.
Proof.
  unfold SIZE_MAX. intros Hl Hu. apply N.ltb_lt. unfold size_t_sub.
  replace (size l + 2 ^ 64 - 1)%N with ((size l - 1) + 1 * 2 ^ 64)%N by lia.
  rewrite N.Div0.mod_add, N.mod_small; lia.
Qed.

(** **** Indexing *)

Lemma at_index_in_range {A} (l : list A) i :
  (i < size l)%N -> exists x, at_index l i = Some x.
Proof.
  intros Hi. apply (lookup_lt_is_Some_2 l (N.to_nat i)). unfold size in Hi. lia.
Qed.

Lemma at_index_out_of_range {A} (l : list A) i :
  (size l <= i)%N -> at_index l i = None.
Proof.
  intros Hi. apply lookup_ge_None_2. unfold size in Hi. lia.
Qed.

Lemma at_index_alter_eq {A} (f : A -> A) (l : list A) i :
  at_index (alter f (N.to_nat i) l) i = f <$> at_index l i.
Proof. apply list_lookup_alter_eq. Qed.

Lemma at_index_alter_ne {A} (f : A -> A) (l : list A) i j :
  i <> j -> at_index (alter f (N.to_nat i) l) j = at_index l j.
Proof. intros Hij. apply list_lookup_alter_ne. lia. Qed.

Lemma adjacency_at_index g i adj :
  at_index (nodes g) i = Some adj -> adjacency g i = adj.
Proof. unfold adjacency. by intros ->. Qed.

(** **** Assigning a weight changes nothing else *)

Lemma map_alter_invariant {A B} (h : A -> B) (f : A -> A) (k : nat) (l : list A) :
  (forall x, h (f x) = h x) -> map h (alter f k l) = map h l.
Proof.
  intros Hf. revert k. induction l as [|x l IH]; intros [|k]; simpl; [done..| |].
  - by rewrite Hf.
  - f_equal. apply IH.
Qed.

Lemma shape_assign_weight g w i k :
  shape (set_nodes g (assign_weight w i k (nodes g))) = shape g.
Proof.
  unfold shape, assign_weight. simpl. do 2 f_equal.
  apply map_alter_invariant. intros adj. by apply map_alter_invariant.
Qed.

Lemma find_neighbor_set_weight (target : option N) w k adj :
  fst <$> find_neighbor target (alter (set_weight w) k adj)
  = fst <$> find_neighbor target adj.
Proof.
  unfold find_neighbor. revert k.
  induction adj as [|nb adj IH]; intros [|k]; simpl; [done..| |].
  - by destruct (decide (node nb = target)).
  - destruct (decide (node nb = target)); [done|].
    specialize (IH k).
    change (list_alter (set_weight w) k adj) with (alter (set_weight w) k adj).
    destruct (list_find _ (alter _ k adj)) as [[? ?]|],
             (list_find _ adj) as [[? ?]|]; simpl in *; congruence.
Qed.

Lemma find_neighbor_lookup (target : option N) adj k it :
  find_neighbor target adj = Some (k, it) -> adj !! k = Some it.
Proof. intros Hf. by apply list_find_Some in Hf as (? & _). Qed.

(** **** Appending an entry *)

Lemma at_index_push_back_eq (nb : Neighbor D) i ns adj :
  at_index ns i = Some adj -> at_index (push_back nb i ns) i = Some (adj ++ [nb]).
Proof. intros Hi. unfold push_back. by rewrite at_index_alter_eq, Hi. Qed.

Lemma at_index_push_back_ne (nb : Neighbor D) i j ns :
  i <> j -> at_index (push_back nb i ns) j = at_index ns j.
Proof. intros Hij. unfold push_back. by rewrite at_index_alter_ne. Qed.

Lemma at_index_assign_weight_eq w i k ns adj :
  at_index ns i = Some adj ->
  at_index (assign_weight w i k ns) i = Some (alter (set_weight w) k adj).
Proof. intros Hi. unfold assign_weight. by rewrite at_index_alter_eq, Hi. Qed.

Lemma at_index_assign_weight_ne w i j k ns :
  i <> j -> at_index (assign_weight w i k ns) j = at_index ns j.
Proof. intros Hij. unfold assign_weight. by rewrite at_index_alter_ne. Qed.

Lemma map_erase_assign_weight w i k ns :
  map (map erase_weight) (assign_weight w i k ns) = map (map erase_weight) ns.
Proof.
  unfold assign_weight.
  apply map_alter_invariant. intros adj. by apply map_alter_invariant.
Qed.

Lemma entry_assign_weight g w i k j m :
  entry (set_nodes g (assign_weight w i k (nodes g))) j m
  = if decide (i = j /\ k = m) then set_weight w <$> entry g i k else entry g j m.
Proof.
  unfold entry, adjacency. simpl.
  destruct (decide (i = j)) as [<-|Hij].
  - unfold assign_weight. rewrite at_index_alter_eq.
    destruct (at_index (nodes g) i) as [adj|]; simpl.
    + rewrite list_lookup_alter.
      destruct (decide (k = m)) as [<-|Hkm].
      * by rewrite decide_True.
      * by rewrite decide_False by tauto.
    + destruct (decide (i = i /\ k = m)) as [[_ <-]|]; [by destruct k|done].
  - rewrite at_index_assign_weight_ne by done. by rewrite decide_False by tauto.
Qed.

(** **** The merging branch of [add_or_merge_edge] *)

Lemma add_or_merge_edge_merges g u v w obs k it :
  in_range g u -> in_range g v ->
  find_neighbor (Some v) (adjacency g u) = Some (k, it) ->
  let g1 := set_nodes g (assign_weight (merge_weights (weight it) w) u k (nodes g)) in
  add_or_merge_edge g u v w obs
  = Ok match find_neighbor (Some u) (adjacency g v) with
       | Some (k2, _) =>
         set_nodes g1 (assign_weight (merge_weights (weight it) w) v k2 (nodes g1))
       | None => g1
       end.
Proof.
  intros Hu Hv Hfind g1.
  destruct (at_index_in_range _ _ Hu) as [adj_u Hau].
  destruct (at_index_in_range _ _ Hv) as [adj_v Hav].
  rewrite (adjacency_at_index _ _ _ Hau) in Hfind.
  rewrite (adjacency_at_index _ _ _ Hav).
  unfold add_or_merge_edge.
  rewrite (edge_guard_in_range _ _ _ Hu Hv), Hau, Hav, Hfind.
  set (nw := merge_weights (weight it) w) in *.
  assert (exists adj_v', at_index (assign_weight nw u k (nodes g)) v = Some adj_v'
            /\ fst <$> find_neighbor (Some u) adj_v'
               = fst <$> find_neighbor (Some u) adj_v) as (adj_v' & -> & Hpos).
  { destruct (decide (u = v)) as [<-|Hne].
    - exists (alter (set_weight nw) k adj_u). split.
      + by apply at_index_assign_weight_eq.
      + assert (adj_v = adj_u) as -> by congruence. apply find_neighbor_set_weight.
    - exists adj_v. split; [|done]. by rewrite at_index_assign_weight_ne. }
  destruct (find_neighbor (Some u) adj_v') as [[k2 ?]|],
           (find_neighbor (Some u) adj_v) as [[k2' ?]|]; simpl in Hpos; try congruence; [|reflexivity].
  by injection Hpos as ->.
Qed.

(** **** Components that are not incorporated *)

Lemma handle_dem_instruction_not_incorporated g (p : D) (c : list N * list N) :
  incorporated c = false -> handle_component p g c = Ok g.
Proof.
  destruct c as [[|d0 [|d1 [|d2 dets]]] obs]; simpl; try discriminate; reflexivity.
Qed.

End GraphFacts.

Section GraphTheorems.

Import stim_io.

Context {D : Type} `{DoubleOps D}.

Implicit Types (g : IntermediateWeightedGraph D) (u v i : N) (w p : D) (obs : list N).

(** C1. For an error mechanism of probability [p] flipping observables
    [obs]: if it triggers two detectors [u], [v] in range with no prior
    edge, [handle_dem_instruction] appends to [nodes[u]] an entry for [v]
    and to [nodes[v]] an entry for [u], both with weight
    [log((1 - p) / p)], written out below with the operations of [double],
    and observables [obs], and changes nothing else;
    if it triggers one detector [u] in range with no prior boundary
    edge, it appends to [nodes[u]] a boundary entry with that weight and
    [obs], and changes nothing else. *)
Theorem handle_dem_instruction_inserts g p obs :
  (forall u v,
      in_range g u -> in_range g v ->
      find_neighbor (Some v) (adjacency g u) = None ->
      exists g',
        handle_dem_instruction g p [u; v] obs = Ok g'
        /\ let e_uv := {| node := Some v;
                          weight := d_log (d_div (d_sub d_one p) p);
                          observables := obs |} in
           let e_vu := {| node := Some u;
                          weight := d_log (d_div (d_sub d_one p) p);
                          observables := obs |} in
           e_uv ∈ adjacency g' u /\ e_vu ∈ adjacency g' v
           /\ (u <> v -> adjacency g' u = adjacency g u ++ [e_uv]
                         /\ adjacency g' v = adjacency g v ++ [e_vu])
           /\ (u = v -> adjacency g' u = adjacency g u ++ [e_uv; e_vu])
           /\ (forall i, i <> u -> i <> v -> adjacency g' i = adjacency g i)
           /\ size (nodes g') = size (nodes g)
           /\ num_nodes g' = num_nodes g
           /\ num_observables g' = num_observables g)
  /\ (forall u,
        size_representable g -> in_range g u ->
        find_neighbor None (adjacency g u) = None ->
        exists g',
          handle_dem_instruction g p [u] obs = Ok g'
          /\ adjacency g' u
             = adjacency g u ++ [{| node := None;
                                    weight := d_log (d_div (d_sub d_one p) p);
                                    observables := obs |}]
          /\ (forall i, i <> u -> adjacency g' i = adjacency g i)
          /\ size (nodes g') = size (nodes g)
          /\ num_nodes g' = num_nodes g
          /\ num_observables g' = num_observables g).
Proof.
  split.
  - intros u v Hu Hv Hfind.
    destruct (at_index_in_range _ _ Hu) as [adj_u Hau].
    destruct (at_index_in_range _ _ Hv) as [adj_v Hav].
    rewrite (adjacency_at_index _ _ _ Hau) in Hfind.
    unfold handle_dem_instruction, log_odds, add_or_merge_edge.
    rewrite (edge_guard_in_range _ _ _ Hu Hv), Hau, Hav, Hfind.
    eexists. split; [reflexivity|]. cbv zeta.
    set (e_uv := {| node := Some v |}). set (e_vu := {| node := Some u |}).
    assert (Huv : u <> v ->
              adjacency (set_nodes g (push_back e_vu v (push_back e_uv u (nodes g)))) u
              = adj_u ++ [e_uv]
              /\ adjacency (set_nodes g (push_back e_vu v (push_back e_uv u (nodes g)))) v
                 = adj_v ++ [e_vu]).
    { intros Hne. unfold adjacency. simpl. split.
      - rewrite at_index_push_back_ne by done.
        by rewrite (at_index_push_back_eq _ _ _ _ Hau).
      - erewrite at_index_push_back_eq; [done|].
        by rewrite at_index_push_back_ne. }
    assert (Huu : u = v ->
              adjacency (set_nodes g (push_back e_vu v (push_back e_uv u (nodes g)))) u
              = adj_u ++ [e_uv; e_vu]).
    { intros <-. assert (adj_v = adj_u) as -> by congruence.
      unfold adjacency. simpl.
      erewrite at_index_push_back_eq; [|by apply at_index_push_back_eq].
      simpl. by rewrite <- app_assoc. }
    rewrite (adjacency_at_index _ _ _ Hau), (adjacency_at_index _ _ _ Hav).
    repeat split.
    + destruct (decide (u = v)) as [Heq|Hne].
      * rewrite (Huu Heq), elem_of_app, !elem_of_cons. auto.
      * destruct (Huv Hne) as [-> _]. rewrite elem_of_app, !elem_of_cons. auto.
    + destruct (decide (u = v)) as [Heq|Hne].
      * subst v. rewrite (Huu eq_refl), elem_of_app, !elem_of_cons. auto.
      * destruct (Huv Hne) as [_ ->]. rewrite elem_of_app, !elem_of_cons. auto.
    + by apply Huv.
    + by apply Huv.
    + done.
    + intros i Hiu Hiv. unfold adjacency. simpl.
      by rewrite !at_index_push_back_ne.
    + unfold size, push_back. simpl. by rewrite !length_alter.
  - intros u Hrep Hu Hfind.
    destruct (at_index_in_range _ _ Hu) as [adj_u Hau].
    rewrite (adjacency_at_index _ _ _ Hau) in Hfind.
    unfold handle_dem_instruction, log_odds, add_or_merge_boundary_edge.
    rewrite (boundary_guard_in_range _ _ Hrep Hu), Hau, Hfind.
    eexists. split; [reflexivity|].
    rewrite (adjacency_at_index _ _ _ Hau). repeat split.
    + unfold adjacency. simpl. by rewrite (at_index_push_back_eq _ _ _ _ Hau).
    + intros i Hiu. unfold adjacency. simpl. by rewrite at_index_push_back_ne.
    + unfold size, push_back. simpl. by rewrite length_alter.
Qed.

(** C9. Merging into an existing edge changes weights only.  When
    [nodes[u]] already has an entry [it] for [v] at position [k],
    [add_or_merge_edge] returns a graph with the same entries, nodes and
    observables as before, in which the entry at [(u, k)] and the first
    entry of [nodes[v]] for [u] carry the weight
    [merge_weights(it.weight, w)], with the node and the observables they
    had, and every other entry is unchanged; the argument [obs] is not
    stored.  Likewise, when [nodes[u]] already has
    a boundary entry [it] at position [k], [add_or_merge_boundary_edge]
    only sets the weight of that entry to [merge_weights(w, it.weight)]. *)
Theorem merge_changes_weight_only g w obs :
  (forall u v k it,
      in_range g u -> in_range g v ->
      find_neighbor (Some v) (adjacency g u) = Some (k, it) ->
      exists g',
        add_or_merge_edge g u v w obs = Ok g'
        /\ shape g' = shape g
        /\ entry g' u k
           = Some {| node := node it;
                     weight := merge_weights (weight it) w;
                     observables := observables it |}
        /\ (forall k2 it2,
              find_neighbor (Some u) (adjacency g v) = Some (k2, it2) ->
              entry g' v k2
              = Some {| node := node it2;
                        weight := merge_weights (weight it) w;
                        observables := observables it2 |})
        /\ (forall i j,
              (i, j) <> (u, k) ->
              (forall k2 it2,
                  find_neighbor (Some u) (adjacency g v) = Some (k2, it2) ->
                  (i, j) <> (v, k2)) ->
              entry g' i j = entry g i j))
  /\ (forall u k it,
        size_representable g -> in_range g u ->
        find_neighbor None (adjacency g u) = Some (k, it) ->
        exists g',
          add_or_merge_boundary_edge g u w obs = Ok g'
          /\ shape g' = shape g
          /\ entry g' u k
             = Some {| node := node it;
                       weight := merge_weights w (weight it);
                       observables := observables it |}
          /\ (forall i j, (i, j) <> (u, k) -> entry g' i j = entry g i j)).
Proof.
  split.
  - intros u v k it Hu Hv Hfind.
    rewrite (add_or_merge_edge_merges g u v w obs k it Hu Hv Hfind).
    set (nw := merge_weights (weight it) w).
    set (g1 := set_nodes g (assign_weight nw u k (nodes g))).
    assert (Hit : entry g u k = Some it) by (by apply find_neighbor_lookup in Hfind).
    assert (H1 : forall i j,
               entry g1 i j
               = if decide (u = i /\ k = j) then Some (set_weight nw it) else entry g i j).
    { intros i j. unfold g1. rewrite entry_assign_weight. by rewrite Hit. }
    eexists. split; [reflexivity|].
    destruct (find_neighbor (Some u) (adjacency g v)) as [[k2 it2]|] eqn:Hrev.
    + assert (Hit2 : entry g v k2 = Some it2) by (by apply find_neighbor_lookup in Hrev).
      assert (H2 : forall i j,
                 entry (set_nodes g1 (assign_weight nw v k2 (nodes g1))) i j
                 = if decide (v = i /\ k2 = j) then Some (set_weight nw it2)
                   else entry g1 i j).
      { intros i j. rewrite entry_assign_weight, H1.
        destruct (decide (v = i /\ k2 = j)) as [[<- <-]|]; [|done].
        destruct (decide (u = v /\ k = k2)) as [[<- <-]|]; [|by rewrite Hit2].
        simpl. f_equal. assert (it2 = it) as -> by congruence. done. }
      repeat split.
      * unfold shape. simpl. by rewrite !map_erase_assign_weight.
      * rewrite H2, H1.
        destruct (decide (v = u /\ k2 = k)) as [[-> ->]|].
        -- f_equal. assert (it2 = it) as -> by congruence. done.
        -- by rewrite decide_True.
      * intros k2' it2' [= <- <-]. rewrite H2. by rewrite decide_True.
      * intros i j Hne Hrev'. rewrite H2, H1.
        rewrite decide_False.
        -- rewrite decide_False; [done|]. intros [<- <-]. by apply Hne.
        -- intros [<- <-]. by eapply Hrev'.
    + repeat split.
      * unfold shape. simpl. by rewrite map_erase_assign_weight.
      * rewrite H1. by rewrite decide_True.
      * intros ? ? [=].
      * intros i j Hne _. rewrite H1, decide_False; [done|].
        intros [<- <-]. by apply Hne.
  - intros u k it Hrep Hu Hfind.
    destruct (at_index_in_range _ _ Hu) as [adj_u Hau].
    assert (Hit : entry g u k = Some it) by (by apply find_neighbor_lookup in Hfind).
    rewrite (adjacency_at_index _ _ _ Hau) in Hfind.
    unfold add_or_merge_boundary_edge.
    rewrite (boundary_guard_in_range _ _ Hrep Hu), Hau, Hfind.
    eexists. split; [reflexivity|]. repeat split.
    + unfold shape. simpl. by rewrite map_erase_assign_weight.
    + rewrite entry_assign_weight, Hit. by rewrite decide_True.
    + intros i j Hne. rewrite entry_assign_weight, decide_False; [done|].
      intros [<- <-]. by apply Hne.
Qed.

(** **** Node indices out of range *)

(** [add_or_merge_edge] throws when the larger index is out of range,
    unless that index is [SIZE_MAX]; nothing is committed. *)
Lemma add_or_merge_edge_rejects g u v w obs :
  (size (nodes g) <= N.max u v)%N -> (N.max u v < SIZE_MAX)%N ->
  add_or_merge_edge g u v w obs = Invalid_argument (exceeds_message (N.max u v) g).
Proof.
  intros Hge Hmax. unfold add_or_merge_edge.
  by rewrite (edge_guard_out_of_range _ _ _ Hge Hmax).
Qed.

(** For the index [SIZE_MAX] the sum [larger_node + 1] wraps to zero: no
    exception is thrown and [nodes] is indexed out of range. *)
Lemma add_or_merge_edge_size_max g v w obs :
  size_representable g -> (v <= SIZE_MAX)%N ->
  add_or_merge_edge g SIZE_MAX v w obs = Out_of_bounds.
Proof.
  unfold size_representable. intros Hrep Hv. unfold add_or_merge_edge.
  rewrite N.max_l by done.
  replace (size_t_add SIZE_MAX 1) with 0%N by done.
  replace (size (nodes g) <? 0)%N with false by (symmetry; apply N.ltb_ge; lia).
  by rewrite (at_index_out_of_range (nodes g) SIZE_MAX Hrep).
Qed.

(** [add_or_merge_boundary_edge] throws when the index is out of range
    and the graph has at least one node; nothing is committed. *)
Lemma add_or_merge_boundary_edge_rejects g u w obs :
  (0 < size (nodes g) <= SIZE_MAX)%N -> (size (nodes g) <= u)%N ->
  add_or_merge_boundary_edge g u w obs = Invalid_argument (exceeds_message u g).
Proof.
  intros Hsz Hge. unfold add_or_merge_boundary_edge.
  by rewrite (boundary_guard_out_of_range _ _ Hsz Hge).
Qed.

(** In range, both operations return normally. *)
Lemma add_or_merge_edge_in_range g u v w obs :
  in_range g u -> in_range g v ->
  exists g', add_or_merge_edge g u v w obs = Ok g'.
Proof.
  intros Hu Hv.
  destruct (at_index_in_range _ _ Hu) as [adj_u Hau].
  destruct (find_neighbor (Some v) adj_u) as [[k it]|] eqn:Hfind.
  - rewrite <- (adjacency_at_index _ _ _ Hau) in Hfind.
    rewrite (add_or_merge_edge_merges g u v w obs k it Hu Hv Hfind). eauto.
  - destruct (at_index_in_range _ _ Hv) as [adj_v Hav].
    unfold add_or_merge_edge.
    rewrite (edge_guard_in_range _ _ _ Hu Hv), Hau, Hav, Hfind. eauto.
Qed.

Lemma add_or_merge_boundary_edge_in_range g u w obs :
  size_representable g -> in_range g u ->
  exists g', add_or_merge_boundary_edge g u w obs = Ok g'.
Proof.
  intros Hrep Hu.
  destruct (at_index_in_range _ _ Hu) as [adj_u Hau].
  unfold add_or_merge_boundary_edge.
  rewrite (boundary_guard_in_range _ _ Hrep Hu), Hau.
  destruct (find_neighbor None adj_u) as [[k it]|]; eauto.
Qed.

(** Without nodes the guard of [add_or_merge_boundary_edge] lets every
    index through: [nodes.size() - 1] is [SIZE_MAX]. *)
Lemma boundary_edge_without_nodes g u w obs :
  nodes g = [] -> (u <= SIZE_MAX)%N ->
  add_or_merge_boundary_edge g u w obs = Out_of_bounds.
Proof.
  intros Hnodes Hu. unfold add_or_merge_boundary_edge. rewrite Hnodes.
  replace (size_t_sub (size []) 1) with SIZE_MAX by done.
  replace (SIZE_MAX <? u)%N with false by (symmetry; apply N.ltb_ge; lia).
  by rewrite (at_index_out_of_range [] u) by (unfold size; simpl; lia).
Qed.

(** C2. On a graph without nodes [add_or_merge_boundary_edge] does not
    throw [std::invalid_argument] for the index 0: the guard
    [u > nodes.size() - 1] compares with [SIZE_MAX], and the call goes on
    to index the empty vector [nodes]. *)
Theorem add_or_merge_boundary_edge_no_nodes (n_observables : N) w obs :
  let g := {| nodes := []; num_nodes := 0; num_observables := n_observables |} in
  add_or_merge_boundary_edge g 0 w obs = Out_of_bounds
  /\ is_invalid_argument (add_or_merge_boundary_edge g 0 w obs) = false.
Proof. split; reflexivity. Qed.

(** **** Reading a detector error model *)

Lemma bind_Ok_r {A} (m : outcome A) : (x ← m; Ok x) = m.
Proof. by destruct m. Qed.

Lemma for_each_app {S A} (step : S -> A -> outcome S) (st : S) (l1 l2 : list A) :
  for_each step st (l1 ++ l2) = (st' ← for_each step st l1; for_each step st' l2).
Proof.
  revert st. induction l1 as [|x l1 IH]; intros st; simpl; [done|].
  destruct (step st x); simpl; [apply IH|done..].
Qed.

Lemma for_each_map_pair g p (cs : list (list N * list N)) :
  for_each handle_mechanism g (map (pair p) cs) = for_each (handle_component p) g cs.
Proof.
  revert g. induction cs as [|c cs IH]; intros g; simpl; [done|].
  change (handle_mechanism g (p, c)) with (handle_component p g c).
  destruct (handle_component p g c); simpl; [apply IH|done..].
Qed.

(** With [p > 0], the loop over the targets followed by the final call
    handles exactly the incorporated components, in order. *)
Lemma target_loop_incorporates p (targets : list (DemTarget)) dets obs g :
  d_lt d_zero p = true ->
  (st ← for_each (target_step p) (dets, obs, g) targets;
   let '(dets', obs', g') := st in handle_dem_instruction g' p dets' obs')
  = for_each (handle_component p) g
      (List.filter incorporated (components_from dets obs targets)).
Proof.
  intros Hp. revert dets obs g.
  induction targets as [|[val|val|] targets IH]; intros dets obs g; simpl.
  - destruct (incorporated (dets, obs)) eqn:Hinc; simpl.
    + unfold handle_component at 1. simpl. by rewrite bind_Ok_r.
    + apply (handle_dem_instruction_not_incorporated g p (dets, obs) Hinc).
  - apply IH.
  - apply IH.
  - rewrite Hp.
    destruct (incorporated (dets, obs)) eqn:Hinc; simpl.
    + unfold handle_component at 2. simpl.
      destruct (handle_dem_instruction g p dets obs); simpl; [apply IH|done..].
    + pose proof (handle_dem_instruction_not_incorporated g p (dets, obs) Hinc) as Hg.
      unfold handle_component in Hg. simpl in Hg. rewrite Hg. simpl. apply IH.
Qed.

(** Without [p > 0], the loop over the targets leaves the graph alone. *)
Lemma target_loop_ignores p (targets : list (DemTarget)) dets obs g :
  d_lt d_zero p = false ->
  exists dets' obs',
    for_each (target_step p) (dets, obs, g) targets = Ok (dets', obs', g).
Proof.
  intros Hp. revert dets obs.
  induction targets as [|[val|val|] targets IH]; intros dets obs; simpl; eauto.
  rewrite Hp. simpl. eauto.
Qed.

Lemma instruction_callback_incorporates g p args (targets : list DemTarget) :
  instruction_callback g {| arg_data := p :: args; target_data := targets |}
  = if d_lt d_zero p
    then for_each (handle_component p) g (List.filter incorporated (components targets))
    else Ok g.
Proof.
  unfold instruction_callback. simpl.
  destruct (d_lt d_zero p) eqn:Hp.
  - unfold components.
    rewrite <- (target_loop_incorporates p targets [] [] g Hp).
    by destruct (for_each _ _ _) as [[[? ?] ?]| |].
  - by destruct (target_loop_ignores p targets [] [] g Hp) as (dets' & obs' & ->).
Qed.

Lemma not_incorporated_length (c : list N * list N) :
  incorporated c = false <-> length (fst c) = 0%nat \/ (3 <= length (fst c))%nat.
Proof.
  unfold incorporated. rewrite orb_false_iff, !Nat.eqb_neq. lia.
Qed.

Lemma detector_error_model_mechanisms (dem : DetectorErrorModel D) :
  Forall (fun instruction => arg_data instruction <> [])
         (flattened_error_instructions dem) ->
  detector_error_model_to_weighted_graph dem
  = for_each handle_mechanism
      (new_graph (count_detectors dem) (count_observables dem))
      (mechanisms dem).
Proof.
  unfold detector_error_model_to_weighted_graph, mechanisms.
  generalize (new_graph (D := D) (count_detectors dem) (count_observables dem)).
  induction (flattened_error_instructions dem) as [|[[|p args] targets] instrs IH];
    intros g Hargs; simpl; [done| |].
  - by apply Forall_cons in Hargs as [? _].
  - apply Forall_cons in Hargs as [_ Hargs].
    rewrite for_each_app, instruction_callback_incorporates.
    unfold mechanisms_of. simpl.
    destruct (d_lt d_zero p); simpl.
    + rewrite for_each_map_pair.
      destruct (for_each (handle_component p) g _); simpl; [by apply IH|done..].
    + by apply IH.
Qed.

(** C10. A component with no detector, or with three or more, leaves
    the graph unchanged; so does an instruction whose probability is not
    above zero; and the weighted graph of a detector error model is the
    result of handling, in order, only its error mechanisms with [p > 0]
    that trigger one or two detectors. *)
Theorem detector_error_model_incorporates (dem : DetectorErrorModel D) :
  (forall g p dets obs,
      length dets = 0%nat \/ (3 <= length dets)%nat ->
      handle_dem_instruction g p dets obs = Ok g)
  /\ (forall g p args targets,
        d_lt d_zero p = false ->
        instruction_callback g {| arg_data := p :: args; target_data := targets |}
        = Ok g)
  /\ (Forall (fun instruction => arg_data instruction <> [])
             (flattened_error_instructions dem) ->
      detector_error_model_to_weighted_graph dem
      = for_each handle_mechanism
          (new_graph (count_detectors dem) (count_observables dem))
          (mechanisms dem)).
Proof.
  split; [|split].
  - intros g p dets obs Hlen.
    apply (handle_dem_instruction_not_incorporated g p (dets, obs)).
    by apply not_incorporated_length.
  - intros g p args targets Hp.
    by rewrite instruction_callback_incorporates, Hp.
  - apply detector_error_model_mechanisms.
Qed.

(** **** The choice of flooders *)

Section ToMwpm.

Context `{Collaborators D}.

(** C5. [to_mwpm] returns a matcher with a search flooder exactly when
    [num_observables] exceeds [sizeof(obs_int) * 8]; that search
    flooder is built over the search graph of [g], and in both cases
    the flooder is the synchronised flooder over the matching graph of
    [g]. *)
Theorem to_mwpm_search_flooder g (num_distinct_weights : N) :
  (sizeof_obs_int * 8 < 2 ^ 64)%N ->
  (is_Some (search_flooder (to_mwpm g num_distinct_weights))
   <-> (sizeof_obs_int * 8 < num_observables g)%N)
  /\ (forall sf,
        search_flooder (to_mwpm g num_distinct_weights) = Some sf ->
        sf = new_SearchFlooder (to_search_graph g num_distinct_weights))
  /\ flooder (to_mwpm g num_distinct_weights)
     = sync_negative_weight_observables_and_detection_events
         (new_GraphFlooder (to_matching_graph g num_distinct_weights)).
Proof.
  intros Hsize. unfold to_mwpm, size_t_mul.
  rewrite N.mod_small by done.
  destruct (N.ltb_spec (sizeof_obs_int * 8) (num_observables g)) as [Hlt|Hge];
    simpl; (split; [|split]).
  - split; [done|]. by eexists.
  - intros sf Hsf. by injection Hsf.
  - reflexivity.
  - split; [by intros [? [=]]|lia].
  - by intros sf [=].
  - reflexivity.
Qed.

End ToMwpm.

End GraphTheorems.

(** *** The flooder's clock *)

Section FlooderFacts.

Import graph_flooder.

Implicit Types (f : GraphFlooder) (e : TentativeEvent) (q : list TentativeEvent).
Implicit Types (t : time_int).

Lemma event_gt_true a b : event_gt a b = true -> (event_time b <= event_time a)%Z.
Proof.
  unfold event_gt. rewrite orb_true_iff, andb_true_iff, Z.ltb_lt, Z.eqb_eq. lia.
Qed.

Lemma event_gt_false a b : event_gt a b = false -> (event_time a <= event_time b)%Z.
Proof.
  unfold event_gt. rewrite orb_false_iff, Z.ltb_ge. lia.
Qed.

Lemma ascending_from_weaken t t' q :
  (t' <= t)%Z -> ascending_from t q -> ascending_from t' q.
Proof. destruct q; simpl; [done|]. intros ? [? ?]. split; [lia|done]. Qed.

(** [push] keeps the queue in order. *)
Lemma pq_push_ascending t e q :
  (t <= event_time e)%Z -> ascending_from t q ->
  ascending_from t (pq_push Compare e q).
Proof.
  revert t. induction q as [|x q IH]; intros t Ht Hq; simpl.
  - done.
  - destruct Hq as [Hx Hq]. unfold Compare at 1.
    destruct (event_gt x e) eqn:Hcmp; simpl.
    + apply event_gt_true in Hcmp. done.
    + apply event_gt_false in Hcmp. split; [done|]. by apply IH.
Qed.

(** Dropping stale events leaves a live event that is not before [t],
    above an ordered rest. *)
Lemma pop_live_ascending current t q :
  ascending_from t q ->
  match pop_live current q with
  | (Some e, q') => (t <= event_time e)%Z /\ ascending_from (event_time e) q'
  | (None, q') => q' = []
  end.
Proof.
  revert t. induction q as [|x q IH]; intros t Hq; simpl; [done|].
  destruct Hq as [Hx Hq]. destruct (is_live current x); [done|].
  specialize (IH (event_time x) Hq).
  destruct (pop_live current q) as [[e|] q']; [|done].
  destruct IH as [He Hq']. split; [lia|done].
Qed.

(** Every step keeps the queue ordered and does not move the clock
    backwards; an event that is returned fires at the new clock. *)
Lemma step_clock f o f' :
  queue_ordered f -> step f o f' ->
  queue_ordered f' /\ (time f <= time f')%Z
  /\ (forall e, o = Some e -> event_time e = time f').
Proof.
  unfold queue_ordered. intros Hf Hstep.
  destruct Hstep as [f authorities t Ht|f authorities|f]; simpl.
  - split; [by apply pq_push_ascending|]. split; [lia|done].
  - split; [done|]. split; [lia|done].
  - unfold next_event.
    pose proof (pop_live_ascending (tokens f) (time f) (queue f) Hf) as Hpop.
    destruct (pop_live (tokens f) (queue f)) as [[e|] q']; simpl.
    + destruct Hpop as [He Hq']. split; [done|]. split; [done|]. by intros ? [= <-].
    + subst q'. split; [done|]. split; [lia|done].
Qed.

Lemma run_clock f trace :
  queue_ordered f -> run f trace ->
  StronglySorted Z.le (clocks f trace)
  /\ StronglySorted Z.le (map event_time (returned trace))
  /\ Forall (fun e => (time f <= event_time e)%Z) (returned trace)
  /\ Forall (fun s => (time f <= time (snd s))%Z) trace
  /\ Forall (fun s => forall e, fst s = Some e -> event_time e = time (snd s)) trace.
Proof.
  intros Hf Hrun. induction Hrun as [f|f o f' trace Hstep Hrun IH].
  - repeat split; repeat constructor.
  - destruct (step_clock f o f' Hf Hstep) as (Hf' & Hle & Ho).
    destruct (IH Hf') as (Hclocks & Hret & Hret_ge & Htrace_ge & Hfire).
    assert (Hge : Forall (fun s => (time f <= time (snd s))%Z) ((o, f') :: trace)).
    { constructor; [done|]. eapply Forall_impl; [exact Htrace_ge|].
      simpl. intros. lia. }
    assert (Hret_f : Forall (fun e => (time f <= event_time e)%Z) (returned trace)).
    { eapply Forall_impl; [exact Hret_ge|]. simpl. intros. lia. }
    split; [|split; [|split; [|split]]].
    + unfold clocks. constructor; [exact Hclocks|].
      change (Forall (Z.le (time f))
                (map (fun s => time (snd s)) ((o, f') :: trace))).
      apply Forall_fmap. eapply Forall_impl; [exact Hge|]. by intros [? ?].
    + unfold returned. simpl. destruct o as [e|]; simpl; [|exact Hret].
      constructor; [exact Hret|]. apply Forall_fmap.
      rewrite (Ho e eq_refl).
      eapply Forall_impl; [exact Hret_ge|]. by intros ?.
    + unfold returned. simpl. destruct o as [e|]; simpl; [|exact Hret_f].
      constructor; [|exact Hret_f]. rewrite (Ho e eq_refl). done.
    + exact Hge.
    + constructor; [exact Ho|exact Hfire].
Qed.

End FlooderFacts.

(** C7. Along any run of a flooder from its creation, the events that
    [next_event] returns have non-decreasing logical times, each returned
    event fires at the value the clock takes with it, and the clock never
    moves backwards. *)
Theorem next_event_times_ascend
    (trace : list (option graph_flooder.TentativeEvent * graph_flooder.GraphFlooder)) :
  graph_flooder.run graph_flooder.new_GraphFlooder trace ->
  StronglySorted Z.le
    (map graph_flooder.event_time (graph_flooder.returned trace))
  /\ StronglySorted Z.le (graph_flooder.clocks graph_flooder.new_GraphFlooder trace)
  /\ Forall (fun s => forall e,
                fst s = Some e -> graph_flooder.event_time e = graph_flooder.time (snd s))
            trace.
Proof.
  intros Hrun.
  destruct (run_clock graph_flooder.new_GraphFlooder trace) as (? & ? & _ & _ & ?);
    [exact I|exact Hrun|done].
Qed.

(** *** The properties at concrete inputs *)

Lemma handle_dem_instruction_inserts_witness :
  let g := @stim_io.new_graph R 2 1 in
  stim_io.in_range g 0 /\ stim_io.in_range g 1
  /\ stim_io.find_neighbor (Some 1%N) (stim_io.adjacency g 0) = None
  /\ stim_io.size_representable g
  /\ stim_io.find_neighbor None (stim_io.adjacency g 0) = None
  /\ (exists g',
        @stim_io.handle_dem_instruction R Exact.ops g (/ 4)%R [0; 1]%N [0%N] = Ok g')
  /\ (exists g',
        @stim_io.handle_dem_instruction R Exact.ops g (/ 4)%R [0%N] [0%N] = Ok g').
Proof.
  intros g.
  assert (Hu : stim_io.in_range g 0) by reflexivity.
  assert (Hv : stim_io.in_range g 1) by reflexivity.
  assert (Hrep : stim_io.size_representable g) by (intros Hgt; discriminate Hgt).
  assert (He : stim_io.find_neighbor (Some 1%N) (stim_io.adjacency g 0) = None)
    by reflexivity.
  assert (Hb : stim_io.find_neighbor None (stim_io.adjacency g 0) = None)
    by reflexivity.
  repeat (split; [assumption|]).
  destruct (@handle_dem_instruction_inserts R Exact.ops g (/ 4)%R [0%N]) as [Hedge Hbnd].
  split.
  - destruct (Hedge 0%N 1%N Hu Hv He) as (g' & Hg' & _). exists g'. exact Hg'.
  - destruct (Hbnd 0%N Hrep Hu Hb) as (g' & Hg' & _). exists g'. exact Hg'.
Defined.

Lemma merge_changes_weight_only_witness :
  let it := {| stim_io.node := Some 1%N; stim_io.weight := 1%R;
               stim_io.observables := [0%N] |} in
  let bd := {| stim_io.node := None; stim_io.weight := 2%R;
               stim_io.observables := [] |} in
  stim_io.in_range samples.two_nodes 0 /\ stim_io.in_range samples.two_nodes 1
  /\ stim_io.find_neighbor (Some 1%N) (stim_io.adjacency samples.two_nodes 0) = Some (0%nat, it)
  /\ stim_io.size_representable samples.two_nodes
  /\ stim_io.find_neighbor None (stim_io.adjacency samples.two_nodes 0) = Some (1%nat, bd)
  /\ (exists g',
        @stim_io.add_or_merge_edge R Exact.ops samples.two_nodes 0 1 3%R [5%N] = Ok g'
        /\ stim_io.shape g' = stim_io.shape samples.two_nodes)
  /\ (exists g',
        @stim_io.add_or_merge_boundary_edge R Exact.ops samples.two_nodes 0 3%R [5%N] = Ok g'
        /\ stim_io.shape g' = stim_io.shape samples.two_nodes).
Proof.
  intros it bd.
  assert (Hu : stim_io.in_range samples.two_nodes 0) by reflexivity.
  assert (Hv : stim_io.in_range samples.two_nodes 1) by reflexivity.
  assert (Hrep : stim_io.size_representable samples.two_nodes) by (intros Hgt; discriminate Hgt).
  assert (He : stim_io.find_neighbor (Some 1%N) (stim_io.adjacency samples.two_nodes 0)
               = Some (0%nat, it)) by reflexivity.
  assert (Hb : stim_io.find_neighbor None (stim_io.adjacency samples.two_nodes 0)
               = Some (1%nat, bd)) by reflexivity.
  repeat (split; [assumption|]).
  destruct (@merge_changes_weight_only R Exact.ops samples.two_nodes 3%R [5%N]) as [Hedge Hbnd].
  split.
  - destruct (Hedge 0%N 1%N 0%nat it Hu Hv He) as (g' & Hg' & Hshape & _).
    exists g'. split; [exact Hg'|exact Hshape].
  - destruct (Hbnd 0%N 1%nat bd Hrep Hu Hb) as (g' & Hg' & Hshape & _).
    exists g'. split; [exact Hg'|exact Hshape].
Defined.

Lemma detector_error_model_incorporates_witness :
  Forall (fun instruction => stim_io.arg_data instruction <> [])
         (stim_io.flattened_error_instructions samples.two_errors)
  /\ @stim_io.detector_error_model_to_weighted_graph R Exact.ops samples.two_errors
     = stim_io.for_each (@stim_io.handle_mechanism R Exact.ops)
         (stim_io.new_graph 3 1)
         (@stim_io.mechanisms R Exact.ops samples.two_errors).
Proof.
  assert (Hargs : Forall (fun instruction => stim_io.arg_data instruction <> [])
                         (stim_io.flattened_error_instructions samples.two_errors))
    by (repeat constructor; discriminate).
  split; [exact Hargs|].
  destruct (@detector_error_model_incorporates R Exact.ops samples.two_errors)
    as (_ & _ & Hmodel).
  exact (Hmodel Hargs).
Defined.

Lemma to_mwpm_search_flooder_witness :
  (@stim_io.sizeof_obs_int R (@stim_io.listing_collaborators R Exact.ops) * 8 < 2 ^ 64)%N
  /\ (is_Some (stim_io.search_flooder
                 (@stim_io.to_mwpm R (@stim_io.listing_collaborators R Exact.ops) samples.two_nodes 1000))
      <-> (@stim_io.sizeof_obs_int R (@stim_io.listing_collaborators R Exact.ops) * 8
           < stim_io.num_observables samples.two_nodes)%N).
Proof.
  assert (Hsize : (@stim_io.sizeof_obs_int R (@stim_io.listing_collaborators R Exact.ops) * 8
                   < 2 ^ 64)%N) by reflexivity.
  split; [exact Hsize|].
  destruct (@to_mwpm_search_flooder R (@stim_io.listing_collaborators R Exact.ops)
              samples.two_nodes 1000%N Hsize) as (Hiff & _).
  exact Hiff.
Defined.

Lemma next_event_times_ascend_witness :
  graph_flooder.run graph_flooder.new_GraphFlooder samples.sample_trace
  /\ StronglySorted Z.le
       (map graph_flooder.event_time (graph_flooder.returned samples.sample_trace)).
Proof.
  assert (Hrun : graph_flooder.run graph_flooder.new_GraphFlooder samples.sample_trace).
  { unfold samples.sample_trace.
    apply graph_flooder.run_step;
      [apply graph_flooder.step_schedule; discriminate|].
    apply graph_flooder.run_step;
      [apply graph_flooder.step_schedule; discriminate|].
    apply graph_flooder.run_step;
      [apply graph_flooder.step_schedule; discriminate|].
    repeat (rewrite (surjective_pairing (graph_flooder.next_event _));
            apply graph_flooder.run_step;
            [apply graph_flooder.step_next_event|]).
    apply graph_flooder.run_done. }
  split; [exact Hrun|].
  destruct (next_event_times_ascend samples.sample_trace Hrun) as (Hsorted & _).
  exact Hsorted.
Defined.

(** *** The definitions on sample inputs *)

(** The run above returns the events for times 1 and 5; the event for
    time 2 was invalidated, and the third call finds the queue empty. *)
Example sample_trace_returns :
  map graph_flooder.event_time (graph_flooder.returned samples.sample_trace) = [1; 5]%Z
  /\ graph_flooder.clocks graph_flooder.new_GraphFlooder samples.sample_trace
     = [0; 0; 0; 0; 1; 5; 5]%Z.
Proof. split; reflexivity. Qed.

(** The components of [D0 D1 L0 ^ D0]. *)
Example components_example :
  stim_io.components
    [stim_io.relative_detector_id 0; stim_io.relative_detector_id 1;
     stim_io.observable_id 0; stim_io.separator; stim_io.relative_detector_id 0]
  = [([0; 1], [0]); ([0], [])]%N.
Proof. reflexivity. Qed.

(** A second edge between the same nodes keeps the observables of the
    first. *)
Example add_or_merge_edge_twice :
  @stim_io.add_or_merge_edge R Exact.ops samples.two_nodes 0 1 3%R [5%N]
  = Ok {| stim_io.nodes :=
            [ [ {| stim_io.node := Some 1%N;
                   stim_io.weight := @merge_weights R Exact.ops 1%R 3%R;
                   stim_io.observables := [0%N] |};
                {| stim_io.node := None; stim_io.weight := 2%R;
                   stim_io.observables := [] |} ];
              [ {| stim_io.node := Some 0%N;
                   stim_io.weight := @merge_weights R Exact.ops 1%R 3%R;
                   stim_io.observables := [0%N] |} ] ];
          stim_io.num_nodes := 2;
          stim_io.num_observables := 1 |}.
Proof. reflexivity. Qed.

(** In binary64, [1.0 + 1.0 = 2.0] and [copysign(1, -0.5) = -1.0]. *)
Example binary64_arithmetic :
  SFadd Binary64.prec Binary64.emax Binary64.one Binary64.one
  = S754_finite false 4503599627370496 (-51)
  /\ Binary64.copysign Binary64.one (S754_finite true 4503599627370496 (-53))
     = S754_finite true 4503599627370496 (-52).
Proof. split; reflexivity. Qed.

(** *** The graph as a table of edges *)

Section LookupFacts.

Import stim_io.

Context {D : Type} `{DoubleOps D}.

Implicit Types (g : IntermediateWeightedGraph D) (adj : list (Neighbor D)).
Implicit Types (u v a i : N) (t : option N) (w : D) (obs : list N).

Lemma lookup_of_None (r : option (nat * Neighbor D)) :
  lookup_of r = None -> r = None.
Proof. by destruct r. Qed.

(** A search of [adj ++ [e]] only reaches [e] when [adj] has no match. *)
Lemma lookup_of_snoc t adj (e : Neighbor D) :
  lookup_of (find_neighbor t (adj ++ [e]))
  = match lookup_of (find_neighbor t adj) with
    | Some r => Some r
    | None => if decide (node e = t) then Some (weight e, observables e) else None
    end.
Proof.
  unfold find_neighbor.
  destruct (list_find (fun nb => node nb = t) adj) as [[k nb]|] eqn:Hfind.
  - by rewrite (list_find_app_l _ _ _ _ _ Hfind).
  - rewrite (list_find_app_r _ _ _ Hfind). simpl.
    by destruct (decide (node e = t)).
Qed.

(** Two searches that stop at the same position look for the same
    target. *)
Lemma find_neighbor_same_position t t' adj k (nb nb' : Neighbor D) :
  find_neighbor t adj = Some (k, nb) -> find_neighbor t' adj = Some (k, nb') -> t = t'.
Proof.
  intros (Hk & <- & _)%list_find_Some (Hk' & <- & _)%list_find_Some. congruence.
Qed.

Lemma find_neighbor_alter t w k adj :
  find_neighbor t (alter (set_weight w) k adj)
  = (fun r => (fst r, if decide (k = fst r) then set_weight w (snd r) else snd r))
      <$> find_neighbor t adj.
Proof.
  unfold find_neighbor. revert k.
  induction adj as [|nb adj IH]; intros k; [done|].
  destruct k as [|k]; simpl.
  - destruct (decide (node nb = t)); [done|].
    by destruct (list_find _ adj) as [[i x]|].
  - destruct (decide (node nb = t)); [done|].
    change (list_alter (set_weight w) k adj) with (alter (set_weight w) k adj).
    rewrite IH.
    destruct (list_find _ adj) as [[i x]|]; simpl; [|done].
    destruct (decide (k = i)) as [->|Hne].
    + by rewrite decide_True.
    + by rewrite decide_False by lia.
Qed.

Lemma at_index_Some_in_range {A} (l : list A) i x :
  at_index l i = Some x -> (i < size l)%N.
Proof. intros Hx%lookup_lt_Some. unfold size. lia. Qed.

Lemma adjacency_push_back g (e : Neighbor D) i a :
  in_range g i ->
  adjacency (set_nodes g (push_back e i (nodes g))) a
  = if decide (i = a) then adjacency g a ++ [e] else adjacency g a.
Proof.
  intros Hi. destruct (at_index_in_range _ _ Hi) as [adj Hadj].
  unfold adjacency. simpl. destruct (decide (i = a)) as [<-|Hne].
  - by rewrite (at_index_push_back_eq _ _ _ _ Hadj), Hadj.
  - by rewrite at_index_push_back_ne.
Qed.

Lemma adjacency_assign_weight g w i k a :
  adjacency (set_nodes g (assign_weight w i k (nodes g))) a
  = if decide (i = a) then alter (set_weight w) k (adjacency g a) else adjacency g a.
Proof.
  unfold adjacency. simpl. destruct (decide (i = a)) as [<-|Hne].
  - unfold assign_weight. rewrite at_index_alter_eq.
    by destruct (at_index (nodes g) i).
  - by rewrite at_index_assign_weight_ne.
Qed.

(** Appending an entry to [nodes[i]] shows in a search only when the
    search found nothing before. *)
Lemma edge_lookup_push_back g (e : Neighbor D) i a t :
  in_range g i ->
  edge_lookup (set_nodes g (push_back e i (nodes g))) a t
  = if decide (i = a)
    then match edge_lookup g a t with
         | Some r => Some r
         | None => if decide (node e = t) then Some (weight e, observables e) else None
         end
    else edge_lookup g a t.
Proof.
  intros Hi. unfold edge_lookup. rewrite (adjacency_push_back _ _ _ _ Hi).
  destruct (decide (i = a)); [|done]. apply lookup_of_snoc.
Qed.

(** Assigning a weight to the first entry of [nodes[i]] for [t0] changes
    what a search for [t0] in [nodes[i]] sees, and nothing else. *)
Lemma edge_lookup_assign_weight g w i k t0 (it : Neighbor D) a t :
  find_neighbor t0 (adjacency g i) = Some (k, it) ->
  edge_lookup (set_nodes g (assign_weight w i k (nodes g))) a t
  = if decide (a = i /\ t = t0) then Some (w, observables it) else edge_lookup g a t.
Proof.
  intros Hfind. unfold edge_lookup. rewrite adjacency_assign_weight.
  destruct (decide (i = a)) as [<-|Hne].
  - rewrite find_neighbor_alter.
    destruct (decide (t = t0)) as [->|Ht].
    + rewrite decide_True by done. rewrite Hfind. simpl. by rewrite decide_True.
    + rewrite decide_False by tauto.
      destruct (find_neighbor t (adjacency g i)) as [[m nb]|] eqn:Hm; simpl; [|done].
      rewrite decide_False; [done|]. intros ->.
      by pose proof (find_neighbor_same_position _ _ _ _ _ _ Hm Hfind).
  - rewrite decide_False; [done|]. intros [-> _]. done.
Qed.

Lemma add_or_merge_edge_Ok_in_range g u v w obs g' :
  add_or_merge_edge g u v w obs = Ok g' -> in_range g u /\ in_range g v.
Proof.
  unfold add_or_merge_edge. destruct (_ <? _)%N; [done|].
  destruct (at_index (nodes g) u) as [adj_u|] eqn:Hu; [|done].
  destruct (at_index (nodes g) v) as [adj_v|] eqn:Hv; [|done].
  intros _. split; eapply at_index_Some_in_range; eauto.
Qed.

Lemma add_or_merge_boundary_edge_Ok_in_range g u w obs g' :
  add_or_merge_boundary_edge g u w obs = Ok g' -> in_range g u.
Proof.
  unfold add_or_merge_boundary_edge. destruct (_ <? _)%N; [done|].
  destruct (at_index (nodes g) u) as [adj_u|] eqn:Hu; [|done].
  intros _. eapply at_index_Some_in_range; eauto.
Qed.

Lemma in_range_push_back g (e : Neighbor D) i a :
  in_range (set_nodes g (push_back e i (nodes g))) a <-> in_range g a.
Proof. unfold in_range, size, push_back. simpl. by rewrite length_alter. Qed.

(** The inserting branch of [add_or_merge_edge]. *)
Lemma add_or_merge_edge_appends g u v w obs :
  in_range g u -> in_range g v ->
  find_neighbor (Some v) (adjacency g u) = None ->
  add_or_merge_edge g u v w obs
  = Ok (set_nodes g
          (push_back {| node := Some u; weight := w; observables := obs |} v
             (push_back {| node := Some v; weight := w; observables := obs |} u
                (nodes g)))).
Proof.
  intros Hu Hv Hfind.
  destruct (at_index_in_range _ _ Hu) as [adj_u Hau].
  destruct (at_index_in_range _ _ Hv) as [adj_v Hav].
  rewrite (adjacency_at_index _ _ _ Hau) in Hfind.
  unfold add_or_merge_edge.
  by rewrite (edge_guard_in_range _ _ _ Hu Hv), Hau, Hav, Hfind.
Qed.

Lemma add_or_merge_edge_table g u v w obs g' :
  undirected g ->
  add_or_merge_edge g u v w obs = Ok g' ->
  forall a t,
    edge_lookup g' a t
    = if decide ((a = u /\ t = Some v) \/ (a = v /\ t = Some u))
      then Some (merged_into (edge_lookup g u (Some v))
                   (fun w0 => merge_weights w0 w) w obs)
      else edge_lookup g a t.
Proof.
  intros Hsym Hok a t.
  destruct (add_or_merge_edge_Ok_in_range _ _ _ _ _ _ Hok) as [Hu Hv].
  pose proof (Hsym u v) as Hvu.
  destruct (find_neighbor (Some v) (adjacency g u)) as [[k it]|] eqn:Hfind.
  - rewrite (add_or_merge_edge_merges g u v w obs k it Hu Hv Hfind) in Hok.
    unfold edge_lookup at 1 2 in Hvu. rewrite Hfind in Hvu.
    unfold edge_lookup at 2. rewrite Hfind. simpl in Hvu. simpl lookup_of.
    destruct (find_neighbor (Some u) (adjacency g v)) as [[k2 it2]|] eqn:Hrev;
      [|done].
    simpl in Hvu. injection Hvu as Hw Hobs. injection Hok as <-.
    set (nw := merge_weights (weight it) w).
    set (g1 := set_nodes g (assign_weight nw u k (nodes g))).
    change (assign_weight nw v k2 (assign_weight nw u k (nodes g)))
      with (assign_weight nw v k2 (nodes g1)).
    assert (exists it2', find_neighbor (Some u) (adjacency g1 v) = Some (k2, it2')
                         /\ observables it2' = observables it2) as (it2' & Hrev1 & Hobs').
    { unfold g1. rewrite adjacency_assign_weight.
      destruct (decide (u = v)) as [<-|]; [|eauto].
      rewrite find_neighbor_alter, Hrev. simpl. eexists. split; [done|].
      by destruct (decide (k = k2)). }
    rewrite (edge_lookup_assign_weight g1 nw v k2 (Some u) it2' a t Hrev1).
    unfold g1.
    rewrite (edge_lookup_assign_weight g nw u k (Some v) it a t Hfind).
    rewrite Hobs', <- Hobs.
    repeat case_decide; try done; tauto.
  - rewrite (add_or_merge_edge_appends g u v w obs Hu Hv Hfind) in Hok.
    injection Hok as <-.
    assert (Huv : edge_lookup g u (Some v) = None)
      by (unfold edge_lookup; by rewrite Hfind).
    rewrite Huv in Hvu. symmetry in Hvu.
    set (e_uv := {| node := Some v; weight := w; observables := obs |}).
    set (e_vu := {| node := Some u; weight := w; observables := obs |}).
    set (g1 := set_nodes g (push_back e_uv u (nodes g))).
    change (set_nodes g (push_back e_vu v (push_back e_uv u (nodes g))))
      with (set_nodes g1 (push_back e_vu v (nodes g1))).
    rewrite (edge_lookup_push_back g1 e_vu v a t) by (by apply in_range_push_back).
    unfold g1. rewrite (edge_lookup_push_back g e_uv u a t Hu).
    rewrite Huv. simpl.
    repeat case_decide; simplify_eq; rewrite ?Huv, ?Hvu; try done;
      try (by destruct (edge_lookup g _ t)); try (exfalso; intuition congruence).
Qed.

(** What a search sees after [add_or_merge_boundary_edge]. *)
Lemma add_or_merge_boundary_edge_table g u w obs g' :
  size_representable g ->
  add_or_merge_boundary_edge g u w obs = Ok g' ->
  forall a t,
    edge_lookup g' a t
    = if decide (a = u /\ t = None)
      then Some (merged_into (edge_lookup g u None)
                   (fun w0 => merge_weights w w0) w obs)
      else edge_lookup g a t.
Proof.
  intros Hrep Hok a t.
  pose proof (add_or_merge_boundary_edge_Ok_in_range _ _ _ _ _ Hok) as Hu.
  destruct (at_index_in_range _ _ Hu) as [adj_u Hau].
  unfold add_or_merge_boundary_edge in Hok.
  rewrite (boundary_guard_in_range _ _ Hrep Hu), Hau in Hok.
  rewrite <- (adjacency_at_index _ _ _ Hau) in Hok.
  destruct (find_neighbor None (adjacency g u)) as [[k it]|] eqn:Hfind.
  - injection Hok as <-.
    rewrite (edge_lookup_assign_weight g _ u k None it a t Hfind).
    assert (Hsome : edge_lookup g u None = Some (weight it, observables it))
      by (unfold edge_lookup; by rewrite Hfind).
    rewrite Hsome. repeat case_decide; try done; tauto.
  - injection Hok as <-.
    rewrite (edge_lookup_push_back g _ u a t Hu).
    assert (Hnone : edge_lookup g u None = None)
      by (unfold edge_lookup; by rewrite Hfind).
    rewrite Hnone. simpl.
    repeat case_decide; simplify_eq; rewrite ?Hnone; try done;
      try (by destruct (edge_lookup g _ t)); try (exfalso; intuition congruence).
Qed.

Lemma add_or_merge_edge_undirected g u v w obs g' :
  undirected g -> add_or_merge_edge g u v w obs = Ok g' -> undirected g'.
Proof.
  intros Hsym Hok a b.
  rewrite !(add_or_merge_edge_table g u v w obs g' Hsym Hok).
  repeat case_decide; try done;
    first [apply Hsym
          |exfalso; destruct_or!; destruct_and!; simplify_eq; intuition congruence].
Qed.

Lemma add_or_merge_boundary_edge_undirected g u w obs g' :
  size_representable g -> undirected g ->
  add_or_merge_boundary_edge g u w obs = Ok g' -> undirected g'.
Proof.
  intros Hrep Hsym Hok a b.
  rewrite !(add_or_merge_boundary_edge_table g u w obs g' Hrep Hok).
  repeat case_decide; try done;
    first [apply Hsym|exfalso; destruct_and!; simplify_eq].
Qed.

(** No operation resizes [nodes] or touches the counts. *)
Lemma add_or_merge_edge_counts g u v w obs g' :
  add_or_merge_edge g u v w obs = Ok g' -> same_counts g g'.
Proof.
  unfold add_or_merge_edge, same_counts. destruct (_ <? _)%N; [done|].
  destruct (at_index (nodes g) u) as [adj_u|]; [|done].
  destruct (at_index (nodes g) v) as [adj_v|]; [|done].
  destruct (find_neighbor (Some v) adj_u) as [[k it]|].
  - destruct (at_index _ v) as [adj_v'|]; [|done].
    destruct (find_neighbor (Some u) adj_v') as [[k2 it2]|]; intros [= <-];
      unfold size, assign_weight; simpl; by rewrite !length_alter.
  - intros [= <-]. unfold size, push_back. simpl. by rewrite !length_alter.
Qed.

Lemma add_or_merge_boundary_edge_counts g u w obs g' :
  add_or_merge_boundary_edge g u w obs = Ok g' -> same_counts g g'.
Proof.
  unfold add_or_merge_boundary_edge, same_counts. destruct (_ <? _)%N; [done|].
  destruct (at_index (nodes g) u) as [adj_u|]; [|done].
  destruct (find_neighbor None adj_u) as [[k it]|]; intros [= <-];
    unfold size, assign_weight, push_back; simpl; by rewrite !length_alter.
Qed.

(** A property of graphs that both operations keep is kept by the whole
    reading of a detector error model. *)
Section Preservation.

Variable I : IntermediateWeightedGraph D -> Prop.

Hypothesis I_edge : forall g u v w obs g',
  I g -> add_or_merge_edge g u v w obs = Ok g' -> I g'.

Hypothesis I_boundary : forall g u w obs g',
  I g -> add_or_merge_boundary_edge g u w obs = Ok g' -> I g'.

Lemma handle_dem_instruction_preserves g (p : D) dets obs g' :
  I g -> handle_dem_instruction g p dets obs = Ok g' -> I g'.
Proof.
  intros Hg. destruct dets as [|d0 [|d1 [|d2 dets]]]; simpl; eauto; by intros [= <-].
Qed.

Lemma target_loop_preserves (p : D) (targets : list DemTarget) dets obs g dets' obs' g' :
  I g -> for_each (target_step p) (dets, obs, g) targets = Ok (dets', obs', g') -> I g'.
Proof.
  revert dets obs g.
  induction targets as [|[val|val|] targets IH]; intros dets obs g Hg; simpl.
  - by intros [= _ _ <-].
  - by apply IH.
  - by apply IH.
  - destruct (d_lt d_zero p).
    + destruct (handle_dem_instruction g p dets obs) as [g1| |] eqn:Hh; simpl; [|done..].
      apply IH. by eapply handle_dem_instruction_preserves.
    + simpl. by apply IH.
Qed.

Lemma instruction_callback_preserves g (instruction : DemInstruction D) g' :
  I g -> instruction_callback g instruction = Ok g' -> I g'.
Proof.
  intros Hg. unfold instruction_callback.
  destruct (arg_data instruction) as [|p args]; [done|].
  destruct (for_each _ _ _) as [[[dets obs] g1]| |] eqn:Hloop; simpl; [|done..].
  pose proof (target_loop_preserves _ _ _ _ _ _ _ _ Hg Hloop) as Hg1.
  destruct (d_lt d_zero p).
  - by apply handle_dem_instruction_preserves.
  - by intros [= <-].
Qed.

Lemma read_instructions_preserves (instructions : list (DemInstruction D)) g g' :
  I g -> for_each instruction_callback g instructions = Ok g' -> I g'.
Proof.
  revert g. induction instructions as [|instruction instructions IH]; intros g Hg; simpl.
  - by intros [= <-].
  - destruct (instruction_callback g instruction) as [g1| |] eqn:Hcb; simpl; [|done..].
    apply IH. by eapply instruction_callback_preserves.
Qed.

End Preservation.

Lemma same_counts_refl g : same_counts g g.
Proof. by unfold same_counts. Qed.

Lemma same_counts_trans g1 g2 g3 :
  same_counts g1 g2 -> same_counts g2 g3 -> same_counts g1 g3.
Proof. unfold same_counts. intros (-> & -> & ->). done. Qed.

Lemma size_representable_counts g g' :
  same_counts g g' -> size_representable g -> size_representable g'.
Proof. unfold same_counts, size_representable. by intros (-> & _). Qed.

Lemma read_instructions_counts (instructions : list (DemInstruction D)) g g' :
  for_each instruction_callback g instructions = Ok g' -> same_counts g g'.
Proof.
  apply (read_instructions_preserves (same_counts g)); [| |apply same_counts_refl].
  - intros g1 u v w obs g2 Hg1 Hok.
    eapply same_counts_trans; [exact Hg1|]. by eapply add_or_merge_edge_counts.
  - intros g1 u w obs g2 Hg1 Hok.
    eapply same_counts_trans; [exact Hg1|]. by eapply add_or_merge_boundary_edge_counts.
Qed.

Lemma read_instructions_undirected (instructions : list (DemInstruction D)) g g' :
  size_representable g -> undirected g ->
  for_each instruction_callback g instructions = Ok g' -> undirected g'.
Proof.
  intros Hrep Hsym Hok.
  apply (read_instructions_preserves
           (fun g => size_representable g /\ undirected g)) in Hok; [tauto|..|done].
  - intros g1 u v w obs g2 [Hrep1 Hsym1] Hok1. split.
    + eapply size_representable_counts; [|exact Hrep1].
      by eapply add_or_merge_edge_counts.
    + by eapply add_or_merge_edge_undirected.
  - intros g1 u w obs g2 [Hrep1 Hsym1] Hok1. split.
    + eapply size_representable_counts; [|exact Hrep1].
      by eapply add_or_merge_boundary_edge_counts.
    + by eapply add_or_merge_boundary_edge_undirected.
Qed.

Lemma adjacency_new_graph (n k : N) a : adjacency (new_graph (D := D) n k) a = [].
Proof.
  unfold adjacency, at_index, new_graph. simpl.
  destruct (replicate (N.to_nat n) [] !! N.to_nat a) as [adj|] eqn:Hadj; [|done].
  by apply lookup_replicate in Hadj as [-> _].
Qed.

Lemma undirected_new_graph (n k : N) : undirected (new_graph (D := D) n k).
Proof. intros a b. unfold edge_lookup. by rewrite !adjacency_new_graph. Qed.

Lemma size_new_graph (n k : N) : size (nodes (new_graph (D := D) n k)) = n.
Proof. unfold size, new_graph. simpl. rewrite length_replicate. lia. Qed.

(** Handling mechanisms whose detectors are nodes never fails. *)
Lemma handle_mechanisms_total (ms : list (D * (list N * list N))) g :
  size_representable g ->
  Forall (fun m => Forall (fun d => (d < size (nodes g))%N) (fst (snd m))) ms ->
  exists g', for_each handle_mechanism g ms = Ok g'.
Proof.
  revert g. induction ms as [|[p [dets obs]] ms IH]; intros g Hrep Hms; simpl; [eauto|].
  apply Forall_cons in Hms as [Hm Hms]. simpl in Hm.
  assert (exists g1, handle_mechanism g (p, (dets, obs)) = Ok g1 /\ same_counts g g1)
    as (g1 & -> & Hcounts).
  { unfold handle_mechanism, handle_component, handle_dem_instruction. simpl.
    destruct dets as [|d0 [|d1 [|d2 dets]]]; try (eexists; split; [done|apply same_counts_refl]).
    - apply Forall_cons in Hm as [Hd0 _].
      destruct (add_or_merge_boundary_edge_in_range g d0 (log_odds p) obs Hrep Hd0)
        as [g1 Hg1].
      exists g1. split; [done|]. by eapply add_or_merge_boundary_edge_counts.
    - apply Forall_cons in Hm as [Hd0 [Hd1 _]%Forall_cons].
      destruct (add_or_merge_edge_in_range g d0 d1 (log_odds p) obs Hd0 Hd1)
        as [g1 Hg1].
      exists g1. split; [done|]. by eapply add_or_merge_edge_counts. }
  simpl. apply IH.
  - by eapply size_representable_counts.
  - destruct Hcounts as (-> & _). done.
Qed.

End LookupFacts.

(** *** The largest magnitude of a weight, over binary64 *)

Section MaxAbsWeight.

Import stim_io Binary64.

Lemma SFltb_magnitude (x y : double) :
  is_magnitude x = true -> is_magnitude y = true ->
  SFltb x y = true <-> key_lt (magnitude_key x) (magnitude_key y).
Proof.
  destruct x as [[]|[]| |[] mx ex], y as [[]|[]| |[] my ey]; try discriminate;
    intros _ _; unfold SFltb; simpl; try (split; [done|lia]); try (split; [lia|done]).
  change (Pos.compare_cont Eq mx my) with (mx ?= my)%positive.
  destruct (Z.compare_spec ex ey), (Pos.compare_spec mx my); split; (done || lia).
Qed.

Lemma SFabs_magnitude (x : double) : is_nan x = false -> is_magnitude (SFabs x) = true.
Proof. by destruct x as [[]|[]| |[] m e]. Qed.

Lemma SFltb_not_nan (x y : double) : SFltb x y = true -> is_nan y = false.
Proof. by destruct x as [[]|[]| |[] mx ex], y as [[]|[]| |[] my ey]. Qed.

Lemma key_lt_irrefl a : ~ key_lt a a.
Proof. destruct a as [[a1 a2] a3]. simpl. lia. Qed.

Lemma key_le_lt_trans a b c : ~ key_lt b a -> key_lt b c -> ~ key_lt c a.
Proof.
  destruct a as [[a1 a2] a3], b as [[b1 b2] b3], c as [[c1 c2] c3]. simpl. lia.
Qed.

Lemma key_le_trans a b c : ~ key_lt b a -> ~ key_lt c b -> ~ key_lt c a.
Proof.
  destruct a as [[a1 a2] a3], b as [[b1 b2] b3], c as [[c1 c2] c3]. simpl. lia.
Qed.

Context (libm_exp libm_log : double -> double).

Local Abbreviation step := (@max_abs_step double (ops libm_exp libm_log)).

Lemma max_abs_step_magnitude (m : double) (nb : Neighbor double) :
  is_magnitude m = true ->
  is_magnitude (step m nb) = true
  /\ ~ key_lt (magnitude_key (step m nb)) (magnitude_key m)
  /\ (is_nan (weight nb) = false ->
      ~ key_lt (magnitude_key (step m nb)) (magnitude_key (SFabs (weight nb))))
  /\ (step m nb = m \/ step m nb = SFabs (weight nb)).
Proof.
  intros Hm. unfold max_abs_step. simpl.
  destruct (SFltb m (SFabs (weight nb))) eqn:Hlt.
  - assert (Hw : is_magnitude (SFabs (weight nb)) = true).
    { apply SFabs_magnitude. apply SFltb_not_nan in Hlt. by destruct (weight nb). }
    apply SFltb_magnitude in Hlt; [|done..].
    split; [done|]. split; [|split; [|by right]].
    + intros Hback. eapply key_le_lt_trans; [apply key_lt_irrefl|exact Hlt|exact Hback].
    + intros _. apply key_lt_irrefl.
  - split; [done|]. split; [apply key_lt_irrefl|]. split; [|by left].
    intros Hnan Hlt'. apply SFltb_magnitude in Hlt'; [congruence|done|].
    by apply SFabs_magnitude.
Qed.

Lemma max_abs_fold_magnitude (l : list (Neighbor double)) (m : double) :
  is_magnitude m = true ->
  is_magnitude (foldl step m l) = true
  /\ ~ key_lt (magnitude_key (foldl step m l)) (magnitude_key m)
  /\ (forall nb, nb ∈ l -> is_nan (weight nb) = false ->
      ~ key_lt (magnitude_key (foldl step m l)) (magnitude_key (SFabs (weight nb))))
  /\ (foldl step m l = m \/ exists nb, nb ∈ l /\ foldl step m l = SFabs (weight nb)).
Proof.
  revert m. induction l as [|nb l IH]; intros m Hm; simpl.
  - split; [done|]. split; [apply key_lt_irrefl|]. split; [|by left].
    intros nb Hnb. by apply elem_of_nil in Hnb.
  - destruct (max_abs_step_magnitude m nb Hm) as (Hm1 & Hle1 & Hnb1 & Hor1).
    destruct (IH _ Hm1) as (Hr & Hle & Hall & Hor).
    split; [done|]. split; [by eapply key_le_trans|]. split.
    + intros nb' Hin Hnan. apply elem_of_cons in Hin as [-> | Hin].
      * eapply key_le_trans; [by apply Hnb1|done].
      * by apply Hall.
    + destruct Hor as [Heq | (nb' & Hin & Heq)]; rewrite Heq.
      * destruct Hor1 as [Heq1 | Heq1]; rewrite Heq1; [by left|]. right. exists nb.
        split; [apply elem_of_cons; by left|done].
      * right. exists nb'. split; [apply elem_of_cons; by right|done].
Qed.

Lemma foldl_join {A B} (f : A -> B -> A) (ls : list (list B)) (a : A) :
  foldl (fun a l => foldl f a l) a ls = foldl f a (mjoin ls).
Proof.
  revert a. induction ls as [|l ls IH]; intros a; simpl; [done|].
  by rewrite foldl_app, IH.
Qed.

Lemma entry_elem_of_join {D : Type} (g : IntermediateWeightedGraph D) i k nb :
  entry g i k = Some nb -> nb ∈ mjoin (nodes g).
Proof.
  unfold entry, adjacency. intros Hk.
  destruct (at_index (nodes g) i) as [adj|] eqn:Hadj; [|done].
  apply list_elem_of_join. exists adj. split.
  - by eapply list_elem_of_lookup_2.
  - by eapply list_elem_of_lookup_2.
Qed.

Lemma elem_of_join_entry {D : Type} (g : IntermediateWeightedGraph D) nb :
  nb ∈ mjoin (nodes g) -> exists i k, entry g i k = Some nb.
Proof.
  intros (adj & Hk & Hi)%list_elem_of_join.
  apply list_elem_of_lookup_1 in Hk as [k Hk].
  apply list_elem_of_lookup_1 in Hi as [i Hi].
  exists (N.of_nat i), k. unfold entry, adjacency, at_index.
  by rewrite Nat2N.id, Hi.
Qed.

(** X11. Over binary64, [max_abs_weight] is never NaN and never negative;
    no stored weight that is not NaN has a magnitude above it; and it is
    zero or the magnitude of a stored weight. *)
Theorem max_abs_weight_bounds (g : IntermediateWeightedGraph double) :
  let m := @max_abs_weight double (ops libm_exp libm_log) g in
  is_magnitude m = true
  /\ (forall i k nb,
        entry g i k = Some nb -> is_nan (weight nb) = false ->
        SFltb m (SFabs (weight nb)) = false)
  /\ (m = zero \/ exists i k nb, entry g i k = Some nb /\ m = SFabs (weight nb)).
Proof.
  unfold max_abs_weight. rewrite foldl_join. simpl.
  destruct (max_abs_fold_magnitude (mjoin (nodes g)) zero eq_refl)
    as (Hm & _ & Hall & Hor).
  split; [done|]. split.
  - intros i k nb Hnb Hnan.
    destruct (SFltb _ (SFabs (weight nb))) eqn:Hlt; [|done].
    apply SFltb_magnitude in Hlt; [|done|by apply SFabs_magnitude].
    destruct (Hall nb (entry_elem_of_join g i k nb Hnb) Hnan Hlt).
  - destruct Hor as [Heq | (nb & Hin & Heq)]; [by left|]. right.
    destruct (elem_of_join_entry g nb Hin) as (i & k & Hnb). eauto.
Qed.

End MaxAbsWeight.

(** *** Merging with a zero weight over binary64 *)

Section Binary64Zero.

Import Binary64.

Context (libm_exp libm_log : double -> double).

(** The product of the two signs is [1.0] or [-1.0]. *)
Lemma copysign_one_mul (a b : double) :
  exists s,
    SFmul prec emax (copysign one a) (copysign one b)
    = S754_finite s 4503599627370496 (-52).
Proof.
  unfold copysign. destruct (sign_bit a), (sign_bit b); eexists; vm_compute; reflexivity.
Qed.

(** The smaller of a finite magnitude and the magnitude of a zero is
    [+0.0], in either order of the arguments of [std::min]. *)
Lemma std_min_abs_zero (a : double) (s : bool) :
  is_finite a = true ->
  @std_min _ (ops libm_exp libm_log) (SFabs a) (SFabs (S754_zero s)) = S754_zero false
  /\ @std_min _ (ops libm_exp libm_log) (SFabs (S754_zero s)) (SFabs a) = S754_zero false.
Proof.
  destruct a as [sa|sa| |sa m e]; try discriminate; intros _; split; reflexivity.
Qed.

(** Adding a zero to a finite value, or subtracting one from the other,
    keeps the magnitude. *)
Lemma SFabs_add_zero (a : double) (s : bool) :
  is_finite a = true ->
  SFabs (SFadd prec emax a (S754_zero s)) = SFabs a
  /\ SFabs (SFadd prec emax (S754_zero s) a) = SFabs a
  /\ SFabs (SFsub prec emax a (S754_zero s)) = SFabs a
  /\ SFabs (SFsub prec emax (S754_zero s) a) = SFabs a.
Proof.
  destruct a as [sa|sa| |sa m e]; try discriminate; intros _;
    repeat split; try reflexivity; destruct sa, s; reflexivity.
Qed.

(** [(±0 + x) - x] is [+0.0] for finite [x]. *)
Lemma SFsub_add_zero_diag (z : bool) (x : double) :
  is_finite x = true ->
  SFsub prec emax (SFadd prec emax (S754_zero z) x) x = S754_zero false.
Proof.
  destruct x as [sx|sx| |sx m e]; try discriminate; intros _.
  - destruct z, sx; reflexivity.
  - unfold SFadd, SFsub. by rewrite Z.sub_diag.
Qed.

(** X14. Over binary64 a zero weight (an error of probability one half)
    absorbs: for finite [a], and whenever the C library returns a finite
    value for [log(1 + exp(-|a|))], [merge_weights(a, z)] and
    [merge_weights(z, a)] are [+0.0] for [z] either [+0.0] or [-0.0]. *)
Theorem merge_weights_zero (a : double) (s : bool) :
  is_finite a = true ->
  is_finite (libm_log (SFadd prec emax one (libm_exp (SFopp (SFabs a))))) = true ->
  @merge_weights _ (ops libm_exp libm_log) a (S754_zero s) = S754_zero false
  /\ @merge_weights _ (ops libm_exp libm_log) (S754_zero s) a = S754_zero false.
Proof.
  intros Ha HL.
  destruct (std_min_abs_zero a s Ha) as [Hmin1 Hmin2].
  destruct (SFabs_add_zero a s Ha) as (Hadd1 & Hadd2 & Hsub1 & Hsub2).
  split; unfold merge_weights;
    cbn [d_mul d_add d_sub d_abs d_neg d_copysign d_one d_exp d_log ops].
  - rewrite Hmin1, Hadd1, Hsub1.
    destruct (copysign_one_mul a (S754_zero s)) as [s' ->].
    by apply SFsub_add_zero_diag.
  - rewrite Hmin2, Hadd2, Hsub2.
    destruct (copysign_one_mul (S754_zero s) a) as [s' ->].
    by apply SFsub_add_zero_diag.
Qed.

End Binary64Zero.

Section GraphTable.

Import stim_io.

Context {D : Type} `{DoubleOps D}.

Implicit Types (g : IntermediateWeightedGraph D).
Implicit Types (u v a i : N) (t : option N) (w : D) (obs : list N).

(** X1. [add_or_merge_edge] returns normally exactly when both indices are
    nodes of the graph, and throws [std::invalid_argument], naming the
    larger index, exactly when that index is at least [nodes.size()] and
    below [SIZE_MAX]. *)
Theorem add_or_merge_edge_outcome g u v w obs :
  (u <= SIZE_MAX)%N -> (v <= SIZE_MAX)%N ->
  ((exists g', add_or_merge_edge g u v w obs = Ok g')
   <-> in_range g u /\ in_range g v)
  /\ (add_or_merge_edge g u v w obs = Invalid_argument (exceeds_message (N.max u v) g)
      <-> (size (nodes g) <= N.max u v)%N /\ (N.max u v < SIZE_MAX)%N).
Proof.
  intros Hu Hv. split.
  - split.
    + intros [g' Hok]. by eapply add_or_merge_edge_Ok_in_range.
    + intros [Hiu Hiv]. by apply add_or_merge_edge_in_range.
  - split.
    + unfold add_or_merge_edge.
      destruct (_ <? _)%N eqn:Hguard.
      * intros _. apply N.ltb_lt in Hguard. unfold size_t_add, SIZE_MAX in *.
        destruct (decide (N.max u v = 2 ^ 64 - 1)%N) as [Hmax|Hmax].
        -- rewrite Hmax in Hguard. change ((2 ^ 64 - 1 + 1) mod 2 ^ 64)%N with 0%N in Hguard.
           lia.
        -- rewrite N.mod_small in Hguard by lia. lia.
      * destruct (at_index (nodes g) u) as [adj_u|]; [|done].
        destruct (at_index (nodes g) v) as [adj_v|]; [|done].
        destruct (find_neighbor (Some v) adj_u) as [[k it]|]; [|done].
        destruct (at_index _ v) as [adj_v'|]; [|done].
        by destruct (find_neighbor (Some u) adj_v') as [[k2 it2]|].
    + intros [Hge Hmax]. by apply add_or_merge_edge_rejects.
Qed.

(** X2. On a graph whose size is a [size_t] value,
    [add_or_merge_boundary_edge] returns normally exactly when the index is
    a node of the graph, and throws [std::invalid_argument] exactly when
    the graph has a node and the index is at least [nodes.size()]. *)
Theorem add_or_merge_boundary_edge_outcome g u w obs :
  size_representable g -> (u <= SIZE_MAX)%N ->
  ((exists g', add_or_merge_boundary_edge g u w obs = Ok g') <-> in_range g u)
  /\ (add_or_merge_boundary_edge g u w obs = Invalid_argument (exceeds_message u g)
      <-> (0 < size (nodes g))%N /\ (size (nodes g) <= u)%N).
Proof.
  intros Hrep Hu. split.
  - split.
    + intros [g' Hok]. by eapply add_or_merge_boundary_edge_Ok_in_range.
    + intros Hiu. by apply add_or_merge_boundary_edge_in_range.
  - split.
    + unfold add_or_merge_boundary_edge.
      destruct (_ <? _)%N eqn:Hguard.
      * intros _. apply N.ltb_lt in Hguard.
        unfold size_t_sub, size_representable, SIZE_MAX in *.
        destruct (decide (size (nodes g) = 0)%N) as [Hz|Hnz].
        -- rewrite Hz in Hguard.
           change ((0 + 2 ^ 64 - 1) mod 2 ^ 64)%N with (2 ^ 64 - 1)%N in Hguard. lia.
        -- replace (size (nodes g) + 2 ^ 64 - 1)%N
             with ((size (nodes g) - 1) + 1 * 2 ^ 64)%N in Hguard by lia.
           rewrite N.Div0.mod_add, N.mod_small in Hguard by lia. lia.
      * destruct (at_index (nodes g) u) as [adj_u|]; [|done].
        by destruct (find_neighbor None adj_u) as [[k it]|].
    + intros [Hpos Hge]. apply add_or_merge_boundary_edge_rejects; [|done].
      unfold size_representable in Hrep. lia.
Qed.

(** X3. After [add_or_merge_edge(u, v, w, obs)] on an undirected graph, a
    search of [nodes[u]] for [v] and of [nodes[v]] for [u] sees the new
    edge: the weight [w] and [obs] if there was no edge, otherwise the
    merged weight with the observables the edge had.  Every other search,
    boundary entries included, sees what it saw before. *)
Theorem add_or_merge_edge_lookup g u v w obs g' :
  undirected g ->
  add_or_merge_edge g u v w obs = Ok g' ->
  forall a t,
    edge_lookup g' a t
    = if decide ((a = u /\ t = Some v) \/ (a = v /\ t = Some u))
      then Some (merged_into (edge_lookup g u (Some v))
                   (fun w0 => merge_weights w0 w) w obs)
      else edge_lookup g a t.
Proof. apply add_or_merge_edge_table. Qed.

(** X4. After [add_or_merge_boundary_edge(u, w, obs)] a search of
    [nodes[u]] for the boundary sees the weight [w] and [obs] if there was
    no boundary edge, otherwise [merge_weights(w, old)] with the
    observables the edge had; every other search sees what it saw
    before. *)
Theorem add_or_merge_boundary_edge_lookup g u w obs g' :
  size_representable g ->
  add_or_merge_boundary_edge g u w obs = Ok g' ->
  forall a t,
    edge_lookup g' a t
    = if decide (a = u /\ t = None)
      then Some (merged_into (edge_lookup g u None)
                   (fun w0 => merge_weights w w0) w obs)
      else edge_lookup g a t.
Proof. apply add_or_merge_boundary_edge_table. Qed.

(** X5. Both operations keep the graph undirected: afterwards every edge
    is still seen with the same weight and observables from both of its
    ends. *)
Theorem add_or_merge_keeps_undirected g :
  undirected g ->
  (forall u v w obs g', add_or_merge_edge g u v w obs = Ok g' -> undirected g')
  /\ (forall u w obs g',
        size_representable g ->
        add_or_merge_boundary_edge g u w obs = Ok g' -> undirected g').
Proof.
  intros Hsym. split.
  - intros u v w obs g'. by apply add_or_merge_edge_undirected.
  - intros u w obs g' Hrep. by apply add_or_merge_boundary_edge_undirected.
Qed.

(** X6. The order of the two detectors does not matter: on an undirected
    graph [add_or_merge_edge(v, u, ..)] succeeds when
    [add_or_merge_edge(u, v, ..)] does, and every search sees the same in
    both results. *)
Theorem add_or_merge_edge_orientation g u v w obs g1 :
  undirected g ->
  add_or_merge_edge g u v w obs = Ok g1 ->
  exists g2,
    add_or_merge_edge g v u w obs = Ok g2
    /\ forall a t, edge_lookup g2 a t = edge_lookup g1 a t.
Proof.
  intros Hsym Hok.
  destruct (add_or_merge_edge_Ok_in_range _ _ _ _ _ _ Hok) as [Hu Hv].
  destruct (add_or_merge_edge_in_range g v u w obs Hv Hu) as [g2 Hok2].
  exists g2. split; [done|]. intros a t.
  rewrite (add_or_merge_edge_table g u v w obs g1 Hsym Hok).
  rewrite (add_or_merge_edge_table g v u w obs g2 Hsym Hok2).
  rewrite (Hsym v u).
  repeat case_decide; try done; exfalso; tauto.
Qed.

(** What a search sees after [add_or_merge_edge] on any graph, undirected
    or not.  The search of [nodes[u]] for [v] decides between inserting
    and merging; the entry of [nodes[v]] for [u] is then appended (and
    hidden by an earlier entry for [u], if there is one) or, when merging,
    given the merged weight if it exists. *)
Lemma add_or_merge_edge_directed_table g u v w obs g' :
  add_or_merge_edge g u v w obs = Ok g' ->
  forall a t,
    edge_lookup g' a t
    = if decide (a = u /\ t = Some v)
      then Some (merged_into (edge_lookup g u (Some v))
                   (fun w0 => merge_weights w0 w) w obs)
      else if decide (a = v /\ t = Some u)
      then match edge_lookup g u (Some v), edge_lookup g v (Some u) with
           | None, None => Some (w, obs)
           | None, Some r => Some r
           | Some (w0, _), Some (_, obs0) => Some (merge_weights w0 w, obs0)
           | Some _, None => None
           end
      else edge_lookup g a t.
Proof.
  intros Hok a t.
  destruct (add_or_merge_edge_Ok_in_range _ _ _ _ _ _ Hok) as [Hu Hv].
  destruct (find_neighbor (Some v) (adjacency g u)) as [[k it]|] eqn:Hfind.
  - rewrite (add_or_merge_edge_merges g u v w obs k it Hu Hv Hfind) in Hok.
    assert (Huv : edge_lookup g u (Some v) = Some (weight it, observables it))
      by (unfold edge_lookup; by rewrite Hfind).
    rewrite Huv. simpl merged_into.
    cbv zeta in Hok.
    set (nw := merge_weights (weight it) w) in *.
    set (g1 := set_nodes g (assign_weight nw u k (nodes g))) in *.
    pose proof (edge_lookup_assign_weight g nw u k (Some v) it a t Hfind) as H1.
    fold g1 in H1.
    destruct (find_neighbor (Some u) (adjacency g v)) as [[k2 it2]|] eqn:Hrev.
    + injection Hok as <-.
      assert (Hvu : edge_lookup g v (Some u) = Some (weight it2, observables it2))
        by (unfold edge_lookup; by rewrite Hrev).
      rewrite Hvu.
      assert (exists it2', find_neighbor (Some u) (adjacency g1 v) = Some (k2, it2')
                           /\ observables it2' = observables it2) as (it2' & Hrev1 & Hobs').
      { unfold g1. rewrite adjacency_assign_weight.
        destruct (decide (u = v)) as [<-|]; [|eauto].
        rewrite find_neighbor_alter, Hrev. simpl. eexists. split; [done|].
        by destruct (decide (k = k2)). }
      change (nodes g1) with (assign_weight nw u k (nodes g)) in Hrev1 |- *.
      change (set_nodes g1 (assign_weight nw v k2 (assign_weight nw u k (nodes g))))
        with (set_nodes g1 (assign_weight nw v k2 (nodes g1))).
      rewrite (edge_lookup_assign_weight g1 nw v k2 (Some u) it2' a t Hrev1).
      rewrite H1, Hobs'.
      repeat case_decide; try done; try (exfalso; tauto).
      by destruct_and!; simplify_eq.
    + injection Hok as <-.
      assert (Hvu : edge_lookup g v (Some u) = None)
        by (unfold edge_lookup; by rewrite Hrev).
      rewrite Hvu, H1.
      repeat case_decide; try done.
      destruct_and!; simplify_eq. done.
  - rewrite (add_or_merge_edge_appends g u v w obs Hu Hv Hfind) in Hok.
    injection Hok as <-.
    assert (Huv : edge_lookup g u (Some v) = None)
      by (unfold edge_lookup; by rewrite Hfind).
    set (e_uv := {| node := Some v; weight := w; observables := obs |}).
    set (e_vu := {| node := Some u; weight := w; observables := obs |}).
    set (g1 := set_nodes g (push_back e_uv u (nodes g))).
    change (set_nodes g (push_back e_vu v (push_back e_uv u (nodes g))))
      with (set_nodes g1 (push_back e_vu v (nodes g1))).
    rewrite (edge_lookup_push_back g1 e_vu v a t) by (by apply in_range_push_back).
    unfold g1. rewrite (edge_lookup_push_back g e_uv u a t Hu).
    rewrite Huv. simpl.
    repeat case_decide; destruct_and?; simplify_eq; rewrite ?Huv; try done;
      try (by destruct (edge_lookup g _ t)); try (exfalso; intuition congruence).
Qed.

(** X7. Two mechanisms on the same pair of detectors, the first on a pair
    neither of which lists the other (the graph need not be undirected
    elsewhere): afterwards both ends see the weight
    [merge_weights(w1, w2)] and the observables of the first, and every
    other search sees what it saw at the start. *)
Theorem add_or_merge_edge_again g u v w1 obs1 w2 obs2 g1 g2 :
  edge_lookup g u (Some v) = None ->
  edge_lookup g v (Some u) = None ->
  add_or_merge_edge g u v w1 obs1 = Ok g1 ->
  add_or_merge_edge g1 u v w2 obs2 = Ok g2 ->
  edge_lookup g2 u (Some v) = Some (merge_weights w1 w2, obs1)
  /\ edge_lookup g2 v (Some u) = Some (merge_weights w1 w2, obs1)
  /\ forall a t,
       ~ ((a = u /\ t = Some v) \/ (a = v /\ t = Some u)) ->
       edge_lookup g2 a t = edge_lookup g a t.
Proof.
  intros Huv Hvu Hok1 Hok2.
  pose proof (add_or_merge_edge_directed_table g u v w1 obs1 g1 Hok1) as Ht1.
  pose proof (add_or_merge_edge_directed_table g1 u v w2 obs2 g2 Hok2) as Ht2.
  assert (Huv1 : edge_lookup g1 u (Some v) = Some (w1, obs1)).
  { rewrite Ht1, decide_True by tauto. by rewrite Huv. }
  assert (Hvu1 : edge_lookup g1 v (Some u) = Some (w1, obs1)).
  { rewrite Ht1. case_decide; [by rewrite Huv|].
    rewrite decide_True by tauto. by rewrite Huv, Hvu. }
  split; [|split].
  - rewrite Ht2, decide_True by tauto. by rewrite Huv1.
  - rewrite Ht2. case_decide; [by rewrite Huv1|].
    rewrite decide_True by tauto. by rewrite Huv1, Hvu1.
  - intros a t Hmiss.
    rewrite Ht2, decide_False, decide_False by tauto.
    by rewrite Ht1, decide_False, decide_False by tauto.
Qed.

(** X8. Mechanisms on different pairs of detectors commute: handled in
    the other order they succeed as well, and every search sees the same
    in both results. *)
Theorem add_or_merge_edges_commute g u v w1 obs1 x y w2 obs2 g1 g12 :
  undirected g ->
  ~ ((x = u /\ y = v) \/ (x = v /\ y = u)) ->
  add_or_merge_edge g u v w1 obs1 = Ok g1 ->
  add_or_merge_edge g1 x y w2 obs2 = Ok g12 ->
  exists g2 g21,
    add_or_merge_edge g x y w2 obs2 = Ok g2
    /\ add_or_merge_edge g2 u v w1 obs1 = Ok g21
    /\ forall a t, edge_lookup g21 a t = edge_lookup g12 a t.
Proof.
  intros Hsym Hne Hok1 Hok12.
  destruct (add_or_merge_edge_Ok_in_range _ _ _ _ _ _ Hok1) as [Hu Hv].
  destruct (add_or_merge_edge_Ok_in_range _ _ _ _ _ _ Hok12) as [Hx1 Hy1].
  destruct (add_or_merge_edge_counts _ _ _ _ _ _ Hok1) as (Hsize1 & _).
  assert (Hx : in_range g x) by (unfold in_range in *; by rewrite <- Hsize1).
  assert (Hy : in_range g y) by (unfold in_range in *; by rewrite <- Hsize1).
  destruct (add_or_merge_edge_in_range g x y w2 obs2 Hx Hy) as [g2 Hok2].
  destruct (add_or_merge_edge_counts _ _ _ _ _ _ Hok2) as (Hsize2 & _).
  assert (Hu2 : in_range g2 u) by (unfold in_range in *; by rewrite Hsize2).
  assert (Hv2 : in_range g2 v) by (unfold in_range in *; by rewrite Hsize2).
  destruct (add_or_merge_edge_in_range g2 u v w1 obs1 Hu2 Hv2) as [g21 Hok21].
  exists g2, g21. split; [done|]. split; [done|]. intros a t.
  pose proof (add_or_merge_edge_undirected g u v w1 obs1 g1 Hsym Hok1) as Hsym1.
  pose proof (add_or_merge_edge_undirected g x y w2 obs2 g2 Hsym Hok2) as Hsym2.
  rewrite (add_or_merge_edge_table g2 u v w1 obs1 g21 Hsym2 Hok21).
  rewrite (add_or_merge_edge_table g1 x y w2 obs2 g12 Hsym1 Hok12).
  rewrite !(add_or_merge_edge_table g x y w2 obs2 g2 Hsym Hok2).
  rewrite !(add_or_merge_edge_table g u v w1 obs1 g1 Hsym Hok1).
  rewrite (decide_False (P := (u = x /\ Some v = Some y) \/ (u = y /\ Some v = Some x)))
    by (intros [[-> [= ->]]|[-> [= ->]]]; tauto).
  rewrite (decide_False (P := (x = u /\ Some y = Some v) \/ (x = v /\ Some y = Some u)))
    by (intros [[-> [= ->]]|[-> [= ->]]]; tauto).
  repeat case_decide; try done.
  exfalso. destruct_or!; destruct_and!; simplify_eq; tauto.
Qed.

End GraphTable.

Section ModelFacts.

Import stim_io.

Context {D : Type} `{DoubleOps D}.

(** X9. Reading a detector error model never resizes the graph and keeps
    it undirected: the graph returned has one adjacency list per
    detector, the counts of the model, and every edge is seen alike from
    both of its ends. *)
Theorem detector_error_model_graph_shape (dem : DetectorErrorModel D) g :
  (count_detectors dem <= SIZE_MAX)%N ->
  detector_error_model_to_weighted_graph dem = Ok g ->
  size (nodes g) = count_detectors dem
  /\ num_nodes g = count_detectors dem
  /\ num_observables g = count_observables dem
  /\ undirected g.
Proof.
  unfold detector_error_model_to_weighted_graph. intros Hmax Hok.
  destruct (read_instructions_counts _ _ _ Hok) as (Hsize & Hnodes & Hobs).
  rewrite size_new_graph in Hsize. split; [done|]. split; [done|]. split; [done|].
  eapply read_instructions_undirected; [| |exact Hok].
  - unfold size_representable. by rewrite size_new_graph.
  - apply undirected_new_graph.
Qed.

(** X10. A detector error model whose mechanisms only name detectors
    below [count_detectors] is read without an exception. *)
Theorem detector_error_model_in_range (dem : DetectorErrorModel D) :
  (count_detectors dem <= SIZE_MAX)%N ->
  Forall (fun instruction => arg_data instruction <> [])
         (flattened_error_instructions dem) ->
  detectors_in_range dem ->
  exists g, detector_error_model_to_weighted_graph dem = Ok g.
Proof.
  intros Hmax Hargs Hrange.
  rewrite (detector_error_model_mechanisms dem Hargs).
  apply handle_mechanisms_total.
  - unfold size_representable. by rewrite size_new_graph.
  - by rewrite size_new_graph.
Qed.

Lemma handle_mechanism_value g (m : D * (list N * list N)) g' :
  size_representable g -> undirected g ->
  handle_mechanism g m = Ok g' ->
  forall a t, edge_lookup g' a t = mechanism_value (edge_lookup g a t) m a t.
Proof.
  intros Hrep Hsym Hok a t. destruct m as [p [dets obs]].
  unfold handle_mechanism, handle_component, handle_dem_instruction in Hok.
  simpl in Hok. unfold mechanism_value.
  destruct dets as [|u [|v [|d2 dets]]]; try (by injection Hok as <-).
  - rewrite (add_or_merge_boundary_edge_table g u _ obs g' Hrep Hok).
    case_decide as Hhit; [|done]. by destruct Hhit as [-> ->].
  - rewrite (add_or_merge_edge_table g u v _ obs g' Hsym Hok).
    case_decide as Hhit; [|done].
    destruct Hhit as [[-> ->]|[-> ->]]; [done|]. by rewrite (Hsym v u).
Qed.

Lemma handle_mechanisms_value (ms : list (D * (list N * list N))) g g' :
  size_representable g -> undirected g ->
  for_each handle_mechanism g ms = Ok g' ->
  forall a t, edge_lookup g' a t = mechanisms_value (edge_lookup g a t) ms a t.
Proof.
  revert g. induction ms as [|m ms IH]; intros g Hrep Hsym Hok a t; simpl in *.
  - by injection Hok as <-.
  - destruct (handle_mechanism g m) as [g1| |] eqn:Hm; simpl in Hok; [|done..].
    assert (Hcounts : same_counts g g1).
    { destruct m as [p [dets obs]].
      unfold handle_mechanism, handle_component, handle_dem_instruction in Hm.
      simpl in Hm.
      destruct dets as [|u [|v [|d2 dets]]];
        try (injection Hm as <-; apply same_counts_refl).
      - by eapply add_or_merge_boundary_edge_counts.
      - by eapply add_or_merge_edge_counts. }
    assert (Hsym1 : undirected g1).
    { intros x y. rewrite !(handle_mechanism_value g m g1 Hrep Hsym Hm).
      destruct m as [p [dets obs]]. unfold mechanism_value.
      destruct dets as [|u [|v [|d2 dets]]]; try apply Hsym.
      - repeat case_decide; try done;
          first [apply Hsym|exfalso; destruct_and!; simplify_eq].
      - rewrite (Hsym y x).
        repeat case_decide; try done;
          exfalso; destruct_or!; destruct_and!; simplify_eq; intuition congruence. }
    rewrite (IH g1 (size_representable_counts _ _ Hcounts Hrep) Hsym1 Hok a t).
    unfold mechanisms_value. simpl.
    by rewrite (handle_mechanism_value g m g1 Hrep Hsym Hm).
Qed.

(** X16. What a search of the graph read from a detector error model
    sees is decided edge by edge: it is the value obtained by merging, in
    order, the mechanisms with [p > 0] on exactly that pair of detectors
    (or on that single detector, for the boundary), starting from no
    edge.  The first such mechanism gives the observables. *)
Theorem detector_error_model_edge_value (dem : DetectorErrorModel D) g :
  (count_detectors dem <= SIZE_MAX)%N ->
  Forall (fun instruction => arg_data instruction <> [])
         (flattened_error_instructions dem) ->
  detector_error_model_to_weighted_graph dem = Ok g ->
  forall a t, edge_lookup g a t = mechanisms_value None (mechanisms dem) a t.
Proof.
  intros Hmax Hargs Hok a t.
  rewrite (detector_error_model_mechanisms dem Hargs) in Hok.
  assert (Hrep : size_representable
                   (new_graph (D := D) (count_detectors dem) (count_observables dem)))
    by (unfold size_representable; by rewrite size_new_graph).
  rewrite (handle_mechanisms_value _ _ _ Hrep (undirected_new_graph _ _) Hok a t).
  unfold edge_lookup. by rewrite adjacency_new_graph.
Qed.

End ModelFacts.

(** *** The further properties at concrete inputs *)

Lemma add_or_merge_edge_outcome_witness :
  (0 <= SIZE_MAX)%N /\ (1 <= SIZE_MAX)%N
  /\ ((exists g', @stim_io.add_or_merge_edge R Exact.ops (stim_io.new_graph 2 1)
                    0 1 3%R [5%N] = Ok g')
      <-> stim_io.in_range (@stim_io.new_graph R 2 1) 0
          /\ stim_io.in_range (@stim_io.new_graph R 2 1) 1).
Proof.
  assert (H0 : (0 <= SIZE_MAX)%N) by (intros Hgt; discriminate Hgt).
  assert (H1 : (1 <= SIZE_MAX)%N) by (intros Hgt; discriminate Hgt).
  split; [exact H0|]. split; [exact H1|].
  exact (proj1 (@add_or_merge_edge_outcome R Exact.ops (stim_io.new_graph 2 1)
                  0%N 1%N 3%R [5%N] H0 H1)).
Defined.

Lemma add_or_merge_boundary_edge_outcome_witness :
  stim_io.size_representable (@stim_io.new_graph R 2 1) /\ (7 <= SIZE_MAX)%N
  /\ (@stim_io.add_or_merge_boundary_edge R Exact.ops (stim_io.new_graph 2 1)
        7 3%R [5%N]
      = Invalid_argument (stim_io.exceeds_message 7 (@stim_io.new_graph R 2 1))
      <-> (0 < stim_io.size (stim_io.nodes (@stim_io.new_graph R 2 1)))%N
          /\ (stim_io.size (stim_io.nodes (@stim_io.new_graph R 2 1)) <= 7)%N).
Proof.
  assert (Hrep : stim_io.size_representable (@stim_io.new_graph R 2 1))
    by (intros Hgt; discriminate Hgt).
  assert (H7 : (7 <= SIZE_MAX)%N) by (intros Hgt; discriminate Hgt).
  split; [exact Hrep|]. split; [exact H7|].
  exact (proj2 (@add_or_merge_boundary_edge_outcome R Exact.ops (stim_io.new_graph 2 1)
                  7%N 3%R [5%N] Hrep H7)).
Defined.

Lemma add_or_merge_edge_lookup_witness :
  stim_io.undirected (@stim_io.new_graph R 2 1)
  /\ @stim_io.add_or_merge_edge R Exact.ops (stim_io.new_graph 2 1) 0 1 3%R [5%N]
     = Ok samples.one_edge
  /\ stim_io.edge_lookup samples.one_edge 1 (Some 0%N) = Some (3%R, [5%N]).
Proof.
  assert (Hsym : stim_io.undirected (@stim_io.new_graph R 2 1))
    by apply undirected_new_graph.
  assert (Hok : @stim_io.add_or_merge_edge R Exact.ops (stim_io.new_graph 2 1)
                  0 1 3%R [5%N] = Ok samples.one_edge) by reflexivity.
  split; [exact Hsym|]. split; [exact Hok|].
  exact (@add_or_merge_edge_lookup R Exact.ops (stim_io.new_graph 2 1) 0%N 1%N 3%R [5%N]
           samples.one_edge Hsym Hok 1%N (Some 0%N)).
Defined.

Lemma add_or_merge_boundary_edge_lookup_witness :
  stim_io.size_representable (@stim_io.new_graph R 2 1)
  /\ @stim_io.add_or_merge_boundary_edge R Exact.ops (stim_io.new_graph 2 1) 0 3%R [5%N]
     = Ok samples.one_boundary_edge
  /\ stim_io.edge_lookup samples.one_boundary_edge 0 None = Some (3%R, [5%N]).
Proof.
  assert (Hrep : stim_io.size_representable (@stim_io.new_graph R 2 1))
    by (intros Hgt; discriminate Hgt).
  assert (Hok : @stim_io.add_or_merge_boundary_edge R Exact.ops (stim_io.new_graph 2 1)
                  0 3%R [5%N] = Ok samples.one_boundary_edge) by reflexivity.
  split; [exact Hrep|]. split; [exact Hok|].
  exact (@add_or_merge_boundary_edge_lookup R Exact.ops (stim_io.new_graph 2 1) 0%N 3%R
           [5%N] samples.one_boundary_edge Hrep Hok 0%N None).
Defined.

Lemma add_or_merge_keeps_undirected_witness :
  stim_io.undirected (@stim_io.new_graph R 2 1)
  /\ @stim_io.add_or_merge_edge R Exact.ops (stim_io.new_graph 2 1) 0 1 3%R [5%N]
     = Ok samples.one_edge
  /\ stim_io.undirected samples.one_edge.
Proof.
  assert (Hsym : stim_io.undirected (@stim_io.new_graph R 2 1))
    by apply undirected_new_graph.
  assert (Hok : @stim_io.add_or_merge_edge R Exact.ops (stim_io.new_graph 2 1)
                  0 1 3%R [5%N] = Ok samples.one_edge) by reflexivity.
  split; [exact Hsym|]. split; [exact Hok|].
  exact (proj1 (@add_or_merge_keeps_undirected R Exact.ops (stim_io.new_graph 2 1) Hsym)
           0%N 1%N 3%R [5%N] samples.one_edge Hok).
Defined.

Lemma add_or_merge_edge_orientation_witness :
  stim_io.undirected (@stim_io.new_graph R 2 1)
  /\ @stim_io.add_or_merge_edge R Exact.ops (stim_io.new_graph 2 1) 0 1 3%R [5%N]
     = Ok samples.one_edge
  /\ exists g2,
       @stim_io.add_or_merge_edge R Exact.ops (stim_io.new_graph 2 1) 1 0 3%R [5%N] = Ok g2
       /\ forall a t, stim_io.edge_lookup g2 a t = stim_io.edge_lookup samples.one_edge a t.
Proof.
  assert (Hsym : stim_io.undirected (@stim_io.new_graph R 2 1))
    by apply undirected_new_graph.
  assert (Hok : @stim_io.add_or_merge_edge R Exact.ops (stim_io.new_graph 2 1)
                  0 1 3%R [5%N] = Ok samples.one_edge) by reflexivity.
  split; [exact Hsym|]. split; [exact Hok|].
  exact (@add_or_merge_edge_orientation R Exact.ops (stim_io.new_graph 2 1) 0%N 1%N 3%R
           [5%N] samples.one_edge Hsym Hok).
Defined.

Lemma add_or_merge_edge_again_witness :
  stim_io.edge_lookup samples.lopsided 0 (Some 1%N) = None
  /\ stim_io.edge_lookup samples.lopsided 1 (Some 0%N) = None
  /\ @stim_io.add_or_merge_edge R Exact.ops samples.lopsided 0 1 3%R [5%N]
     = Ok samples.lopsided_edge
  /\ @stim_io.add_or_merge_edge R Exact.ops samples.lopsided_edge 0 1 4%R [6%N]
     = Ok samples.lopsided_edge_merged
  /\ stim_io.edge_lookup samples.lopsided_edge_merged 0 (Some 1%N)
     = Some (@merge_weights R Exact.ops 3%R 4%R, [5%N])
  /\ stim_io.edge_lookup samples.lopsided_edge_merged 1 (Some 0%N)
     = Some (@merge_weights R Exact.ops 3%R 4%R, [5%N]).
Proof.
  assert (Huv : stim_io.edge_lookup samples.lopsided 0 (Some 1%N) = None) by reflexivity.
  assert (Hvu : stim_io.edge_lookup samples.lopsided 1 (Some 0%N) = None) by reflexivity.
  assert (Hok1 : @stim_io.add_or_merge_edge R Exact.ops samples.lopsided
                   0 1 3%R [5%N] = Ok samples.lopsided_edge) by reflexivity.
  assert (Hok2 : @stim_io.add_or_merge_edge R Exact.ops samples.lopsided_edge
                   0 1 4%R [6%N] = Ok samples.lopsided_edge_merged) by reflexivity.
  split; [exact Huv|]. split; [exact Hvu|]. split; [exact Hok1|]. split; [exact Hok2|].
  pose proof (@add_or_merge_edge_again R Exact.ops samples.lopsided 0%N 1%N
                3%R [5%N] 4%R [6%N] samples.lopsided_edge samples.lopsided_edge_merged
                Huv Hvu Hok1 Hok2) as (H1 & H2 & _).
  split; [exact H1|exact H2].
Defined.

Lemma add_or_merge_edges_commute_witness :
  stim_io.undirected (@stim_io.new_graph R 3 1)
  /\ ~ ((1 = 0 /\ 2 = 1) \/ (1 = 1 /\ 2 = 0))%N
  /\ @stim_io.add_or_merge_edge R Exact.ops (stim_io.new_graph 3 1) 0 1 3%R [5%N]
     = Ok samples.path_start
  /\ @stim_io.add_or_merge_edge R Exact.ops samples.path_start 1 2 4%R [6%N]
     = Ok samples.path
  /\ exists g2 g21,
       @stim_io.add_or_merge_edge R Exact.ops (stim_io.new_graph 3 1) 1 2 4%R [6%N] = Ok g2
       /\ @stim_io.add_or_merge_edge R Exact.ops g2 0 1 3%R [5%N] = Ok g21
       /\ forall a t, stim_io.edge_lookup g21 a t = stim_io.edge_lookup samples.path a t.
Proof.
  assert (Hsym : stim_io.undirected (@stim_io.new_graph R 3 1))
    by apply undirected_new_graph.
  assert (Hne : ~ ((1 = 0 /\ 2 = 1) \/ (1 = 1 /\ 2 = 0))%N) by lia.
  assert (Hok1 : @stim_io.add_or_merge_edge R Exact.ops (stim_io.new_graph 3 1)
                   0 1 3%R [5%N] = Ok samples.path_start) by reflexivity.
  assert (Hok2 : @stim_io.add_or_merge_edge R Exact.ops samples.path_start
                   1 2 4%R [6%N] = Ok samples.path) by reflexivity.
  split; [exact Hsym|]. split; [exact Hne|]. split; [exact Hok1|]. split; [exact Hok2|].
  exact (@add_or_merge_edges_commute R Exact.ops (stim_io.new_graph 3 1) 0%N 1%N 3%R [5%N]
           1%N 2%N 4%R [6%N] samples.path_start samples.path Hsym Hne Hok1 Hok2).
Defined.

Lemma detector_error_model_graph_shape_witness :
  (stim_io.count_detectors samples.binary64_errors <= SIZE_MAX)%N
  /\ @stim_io.detector_error_model_to_weighted_graph _ Binary64.stand_in_ops
       samples.binary64_errors = Ok samples.binary64_graph
  /\ stim_io.size (stim_io.nodes samples.binary64_graph) = 3%N
  /\ stim_io.undirected samples.binary64_graph.
Proof.
  assert (Hmax : (stim_io.count_detectors samples.binary64_errors <= SIZE_MAX)%N)
    by (intros Hgt; discriminate Hgt).
  assert (Hok : @stim_io.detector_error_model_to_weighted_graph _ Binary64.stand_in_ops
                  samples.binary64_errors = Ok samples.binary64_graph)
    by (vm_compute; reflexivity).
  split; [exact Hmax|]. split; [exact Hok|].
  destruct (@detector_error_model_graph_shape _ Binary64.stand_in_ops
              samples.binary64_errors samples.binary64_graph Hmax Hok)
    as (Hsize & _ & _ & Hsym).
  split; [exact Hsize|exact Hsym].
Defined.

Lemma detector_error_model_in_range_witness :
  (stim_io.count_detectors samples.binary64_errors <= SIZE_MAX)%N
  /\ Forall (fun instruction => stim_io.arg_data instruction <> [])
            (stim_io.flattened_error_instructions samples.binary64_errors)
  /\ @stim_io.detectors_in_range _ Binary64.stand_in_ops samples.binary64_errors
  /\ exists g,
       @stim_io.detector_error_model_to_weighted_graph _ Binary64.stand_in_ops
         samples.binary64_errors = Ok g.
Proof.
  assert (Hmax : (stim_io.count_detectors samples.binary64_errors <= SIZE_MAX)%N)
    by (intros Hgt; discriminate Hgt).
  assert (Hargs : Forall (fun instruction => stim_io.arg_data instruction <> [])
                    (stim_io.flattened_error_instructions samples.binary64_errors))
    by (repeat constructor; discriminate).
  assert (Hrange : @stim_io.detectors_in_range _ Binary64.stand_in_ops
                     samples.binary64_errors)
    by (vm_compute; repeat constructor).
  split; [exact Hmax|]. split; [exact Hargs|]. split; [exact Hrange|].
  exact (@detector_error_model_in_range _ Binary64.stand_in_ops
           samples.binary64_errors Hmax Hargs Hrange).
Defined.

Lemma detector_error_model_edge_value_witness :
  (stim_io.count_detectors samples.binary64_errors <= SIZE_MAX)%N
  /\ Forall (fun instruction => stim_io.arg_data instruction <> [])
            (stim_io.flattened_error_instructions samples.binary64_errors)
  /\ @stim_io.detector_error_model_to_weighted_graph _ Binary64.stand_in_ops
       samples.binary64_errors = Ok samples.binary64_graph
  /\ stim_io.edge_lookup samples.binary64_graph 1 (Some 0%N)
     = @stim_io.mechanisms_value _ Binary64.stand_in_ops None
         (@stim_io.mechanisms _ Binary64.stand_in_ops samples.binary64_errors)
         1 (Some 0%N).
Proof.
  assert (Hmax : (stim_io.count_detectors samples.binary64_errors <= SIZE_MAX)%N)
    by (intros Hgt; discriminate Hgt).
  assert (Hargs : Forall (fun instruction => stim_io.arg_data instruction <> [])
                    (stim_io.flattened_error_instructions samples.binary64_errors))
    by (repeat constructor; discriminate).
  assert (Hok : @stim_io.detector_error_model_to_weighted_graph _ Binary64.stand_in_ops
                  samples.binary64_errors = Ok samples.binary64_graph)
    by (vm_compute; reflexivity).
  split; [exact Hmax|]. split; [exact Hargs|]. split; [exact Hok|].
  exact (@detector_error_model_edge_value _ Binary64.stand_in_ops
           samples.binary64_errors samples.binary64_graph Hmax Hargs Hok 1%N (Some 0%N)).
Defined.

Lemma max_abs_weight_bounds_witness :
  let nb := {| stim_io.node := Some 1%N;
               stim_io.weight := S754_finite false 6755399441055744 (-51);
               stim_io.observables := [0%N] |} in
  stim_io.entry samples.binary64_graph 0 0 = Some nb
  /\ Binary64.is_nan (stim_io.weight nb) = false
  /\ SFltb (@stim_io.max_abs_weight _ Binary64.stand_in_ops samples.binary64_graph)
           (SFabs (stim_io.weight nb)) = false.
Proof.
  intros nb.
  assert (Hnb : stim_io.entry samples.binary64_graph 0 0 = Some nb) by reflexivity.
  assert (Hnan : Binary64.is_nan (stim_io.weight nb) = false) by reflexivity.
  split; [exact Hnb|]. split; [exact Hnan|].
  exact (proj1 (proj2 (max_abs_weight_bounds (fun x => x) (fun x => x)
                         samples.binary64_graph)) 0%N 0%nat nb Hnb Hnan).
Defined.

Lemma merge_weights_zero_witness :
  let a := S754_finite false 6755399441055744 (-51) in      (* 3.0 *)
  Binary64.is_finite a = true
  /\ Binary64.is_finite (SFadd Binary64.prec Binary64.emax Binary64.one (SFopp (SFabs a)))
     = true
  /\ @merge_weights _ Binary64.stand_in_ops a (S754_zero true) = S754_zero false.
Proof.
  intros a.
  assert (Ha : Binary64.is_finite a = true) by reflexivity.
  assert (HL : Binary64.is_finite
                 (SFadd Binary64.prec Binary64.emax Binary64.one (SFopp (SFabs a)))
               = true) by reflexivity.
  split; [exact Ha|]. split; [exact HL|].
  exact (proj1 (merge_weights_zero (fun x => x) (fun x => x) a true Ha HL)).
Defined.

(** The graph read from the sample model: the edge between detectors 0
    and 1 with weight 3 (the stand-in for the logarithm is the identity,
    and (1 - 0.25) / 0.25 = 3), and a boundary edge on detector 0 with the
    same weight; the mechanism on three detectors is left out. *)
Example binary64_graph_value :
  samples.binary64_graph
  = {| stim_io.nodes :=
         [ [ {| stim_io.node := Some 1%N;
                stim_io.weight := S754_finite false 6755399441055744 (-51);
                stim_io.observables := [0%N] |};
             {| stim_io.node := None;
                stim_io.weight := S754_finite false 6755399441055744 (-51);
                stim_io.observables := [] |} ];
           [ {| stim_io.node := Some 0%N;
                stim_io.weight := S754_finite false 6755399441055744 (-51);
                stim_io.observables := [0%N] |} ];
           [] ];
       stim_io.num_nodes := 3;
       stim_io.num_observables := 1 |}
  /\ @stim_io.max_abs_weight _ Binary64.stand_in_ops samples.binary64_graph
     = S754_finite false 6755399441055744 (-51).
Proof. split; reflexivity. Qed.
